(** * cryptodog-server: rooms, registry and message routing

    A shallow embedding of [cmd/cryptodog-server/server.go].

    Go pointers ([*Room], [*User]) are addresses into two stores, so that
    the aliasing of the source is kept: the registry [allRooms] and every
    session hold the same room object, and a room's [Users] map holds the
    very user object its session mutates.  A dereference of an address that
    is not allocated is Go's nil-pointer panic.

    Channel traffic and mutex operations are recorded in an event log, in
    program order.  [sendMessage]'s [select] is resolved by the state of the
    recipient: the send on [Sendc] completes while the recipient's writer is
    listening, the [Leavec] case fires once that channel is closed.  How
    long a send waits is not modelled, and neither is a writer that has
    stopped on a write error of its own without closing [Leavec]. *)

From stdpp Require Import gmap strings list fin_maps.

Local Open Scope list_scope.

(** ** The protocol messages used by the server *)

(** Modelled from the spec: package [cryptodog-server/proto], which the
    server imports and which is not among the sources.  The message
    records carry the fields that [server.go] reads and writes, as the
    spec's table of message variants lists them. *)
Module proto.

Record JoinMessage := mkJoin { Join_Name : string; Join_Room : string }.
Record LeaveMessage := mkLeave { Leave_Name : string }.
Record GroupMessage := mkGroup { Group_From : string; Group_Text : string }.
Record PrivateMessage :=
  mkPrivate { Private_From : string; Private_To : string; Private_Text : string }.
Record RosterMessage := mkRoster { Roster_Users : list string }.
Record ErrorMessage := mkError { Error_Error : string }.

(** The [SpecificMessage] interface: any of the typed messages. *)
Inductive SpecificMessage :=
| Join (m : JoinMessage)
| Leave (m : LeaveMessage)
| Group (m : GroupMessage)
| Private (m : PrivateMessage)
| Roster (m : RosterMessage)
| Error (m : ErrorMessage).

(** The discriminator of an inbound [Message]. *)
Inductive MessageType :=
| TypeJoinMessage
| TypeLeaveMessage
| TypeGroupMessage
| TypePrivateMessage
| TypeRosterMessage
| TypeErrorMessage
| TypeUnknown (tag : string).

End proto.
Import proto.

(** ** Data model *)

Definition ptr := nat.

(** [User]: [Sendc] is unbuffered, its traffic is in the event log;
    [Leavec] is [true] once the channel has been closed. *)
Record User := mkUser { User_Name : string; User_Leavec : bool }.

(** [Room]: the [Mutex] field shows up as lock events on [RoomMutex]. *)
Record Room := mkRoom { Room_Name : string; Room_Users : gmap string ptr }.

Inductive Mutex :=
| allRoomsMutex
| RoomMutex (room : ptr).

Inductive Event :=
| EvLock (m : Mutex)
| EvUnlock (m : Mutex)
| EvSend (to : ptr) (msg : SpecificMessage) (delivered : bool).

Record State := mkState {
  allRooms : gmap string ptr;
  rooms : gmap ptr Room;
  users : gmap ptr User;
  events : list Event
}.

(** No room and no user at all: the state at process start. *)
Definition st_init : State := mkState ∅ ∅ ∅ [].

Definition error := string.

(** ** A state monad with panic *)

Definition M (A : Type) : Type := State → option (A * State).

Global Instance M_ret : MRet M := λ A a st, Some (a, st).

Global Instance M_bind : MBind M := λ A B k m st,
  match m st with
  | Some (a, st') => k a st'
  | None => None
  end.

Definition ret {A} (a : A) : M A := mret a.

Definition modify (f : State → State) : M unit := λ st, Some (tt, f st).

Definition emit (e : Event) : M unit :=
  modify (λ st, mkState (allRooms st) (rooms st) (users st) (events st ++ [e])).

Definition derefRoom (room : ptr) : M Room :=
  λ st, match rooms st !! room with
        | Some R => Some (R, st)
        | None => None
        end.

Definition derefUser (user : ptr) : M User :=
  λ st, match users st !! user with
        | Some U => Some (U, st)
        | None => None
        end.

Definition getAllRooms : M (gmap string ptr) := λ st, Some (allRooms st, st).

Definition setAllRooms (reg : gmap string ptr) : M unit :=
  modify (λ st, mkState reg (rooms st) (users st) (events st)).

Definition setRoomUsers (room : ptr) (us : gmap string ptr) : M unit :=
  R ← derefRoom room;
  modify (λ st, mkState (allRooms st)
                        (<[room := mkRoom (Room_Name R) us]> (rooms st))
                        (users st) (events st)).

Definition setUserName (user : ptr) (name : string) : M unit :=
  U ← derefUser user;
  modify (λ st, mkState (allRooms st) (rooms st)
                        (<[user := mkUser name (User_Leavec U)]> (users st))
                        (events st)).

(** [&Room{...}]: a new object at an address not in use. *)
Definition newRoom (R : Room) : M ptr :=
  λ st, let room := fresh (dom (rooms st)) in
        Some (room, mkState (allRooms st) (<[room := R]> (rooms st))
                            (users st) (events st)).

Definition Lock (m : Mutex) : M unit :=
  match m with
  | allRoomsMutex => emit (EvLock allRoomsMutex)
  | RoomMutex room => derefRoom room ;; emit (EvLock (RoomMutex room))
  end.

Definition Unlock (m : Mutex) : M unit :=
  match m with
  | allRoomsMutex => emit (EvUnlock allRoomsMutex)
  | RoomMutex room => derefRoom room ;; emit (EvUnlock (RoomMutex room))
  end.

(** ** States and decoders used as examples *)

(** Room "lobby" at address 0 with "alice" (user 0) in it; user 1 is
    connected and has not joined; user 2 has joined as "carol" and its
    [Leavec] is closed. *)
Definition st_lobby : State :=
  mkState
    (<["lobby" := 0]> ∅)
    (<[0 := mkRoom "lobby" (<["carol" := 2]> (<["alice" := 0]> ∅))]> ∅)
    (<[2 := mkUser "carol" true]>
       (<[1 := mkUser "" false]> (<[0 := mkUser "alice" false]> ∅)))
    [].

(** A decoder that fails on every payload. *)
Definition no_payload {A} : unit → error + A := λ _, inl "unexpected end of JSON input".

(** A decoder that fails on every payload, whatever the payload's type. *)
Definition undecodable {R A} : R → error + A :=
  λ _, inl "invalid character".

(** Two connections: user 0 has created the room "lobby" by joining it as
    "alice"; user 1 is connected and has not joined. *)
Definition st_two : State :=
  mkState
    (<["lobby" := 0]> ∅)
    (<[0 := mkRoom "lobby" (<["alice" := 0]> ∅)]> ∅)
    (<[1 := mkUser "" false]> (<[0 := mkUser "alice" false]> ∅))
    [EvLock allRoomsMutex;
     EvSend 0 (Roster (mkRoster [])) true;
     EvSend 0 (Join (mkJoin "alice" "")) true;
     EvUnlock allRoomsMutex].

(** User 0 has left the room object 0, which is empty and out of the
    registry; user 1 has since created a room of the same name "lobby",
    the object 1, by joining it as "bob". *)
Definition st_stale : State :=
  mkState
    (<["lobby" := 1]> ∅)
    (<[1 := mkRoom "lobby" (<["bob" := 1]> ∅)]> (<[0 := mkRoom "lobby" ∅]> ∅))
    (<[1 := mkUser "bob" false]> (<[0 := mkUser "alice" false]> ∅))
    [].

(** ** The server *)

Section Server.

(** The order in which [range] visits a map is not specified by Go: it is
    any enumeration of the map's entries. *)
Variable range_order : gmap string ptr → list (string * ptr).
Hypothesis range_order_perm : ∀ m, range_order m ≡ₚ map_to_list m.

(** The undecoded payload of an inbound message, and [json.Unmarshal] at
    the three payload types the receive path decodes. *)
Variable RawMessage : Type.
Variable unmarshalJoin : RawMessage → error + JoinMessage.
Variable unmarshalGroup : RawMessage → error + GroupMessage.
Variable unmarshalPrivate : RawMessage → error + PrivateMessage.

Record Message := mkMessage { Type_ : MessageType; Raw : RawMessage }.

(** [sendMessage]: [true] when the send on [Sendc] completes, [false] when
    the user's [Leavec] is closed. *)
Definition sendMessage (user : ptr) (msg : SpecificMessage) : M bool :=
  U ← derefUser user;
  let ok := negb (User_Leavec U) in
  emit (EvSend user msg ok) ;;
  ret ok.

Fixpoint sendAll (l : list (string * ptr)) (msg : SpecificMessage) : M unit :=
  match l with
  | [] => ret tt
  | (_, user) :: l' => sendMessage user msg ;; sendAll l' msg
  end.

(** [broadcastMessage]: the return value of each send is ignored. *)
Definition broadcastMessage (us : gmap string ptr) (msg : SpecificMessage) : M unit :=
  sendAll (range_order us) msg.

Definition bad_length (s : string) : bool :=
  (String.length s =? 0)%nat || (128 <? String.length s)%nat.

(** The part of [handleJoinMessage] that runs between taking the registry
    mutex and the assignment of [user.Name]: [inl] is an early return. *)
Definition joinRoom (msg : JoinMessage) (user : ptr) : M (error + ptr) :=
  reg ← getAllRooms;
  match reg !! Join_Room msg with
  | Some r =>
      Lock (RoomMutex r) ;;
      R ← derefRoom r;
      match Room_Users R !! Join_Name msg with
      | Some _ =>
          Unlock (RoomMutex r) ;;
          ret (inl "Nickname in use.")
      | None =>
          setRoomUsers r (<[Join_Name msg := user]> (Room_Users R)) ;;
          Unlock (RoomMutex r) ;;
          ret (inr r)
      end
  | None =>
      room ← newRoom (mkRoom (Join_Room msg) ∅);
      R ← derefRoom room;
      setRoomUsers room (<[Join_Name msg := user]> (Room_Users R)) ;;
      reg' ← getAllRooms;
      setAllRooms (<[Join_Room msg := room]> reg') ;;
      ret (inr room)
  end.

Definition curUsers (R : Room) (self : string) : list string :=
  filter (λ name, name ≠ self) (range_order (Room_Users R)).*1.

Definition handleJoinMessage (msg : JoinMessage) (user : ptr) : M (error + ptr) :=
  if bad_length (Join_Room msg) then
    ret (inl "Room name must be between 1 and 128 characters.")
  else if bad_length (Join_Name msg) then
    ret (inl "Nickname must be between 1 and 128 characters.")
  else
    Lock allRoomsMutex ;;
    res ← joinRoom msg user;
    match res with
    | inl err =>
        Unlock allRoomsMutex ;;
        ret (inl err)
    | inr room =>
        setUserName user (Join_Name msg) ;;
        R ← derefRoom room;
        U ← derefUser user;
        sendMessage user (Roster (mkRoster (curUsers R (User_Name U)))) ;;
        broadcastMessage (Room_Users R) (Join (mkJoin (Join_Name msg) "")) ;;
        Unlock allRoomsMutex ;;
        ret (inr room)
    end.

Definition handleLeaveMessage (room user : ptr) : M unit :=
  Lock allRoomsMutex ;;
  Lock (RoomMutex room) ;;
  R ← derefRoom room;
  U ← derefUser user;
  setRoomUsers room (delete (User_Name U) (Room_Users R)) ;;
  R' ← derefRoom room;
  broadcastMessage (Room_Users R') (Leave (mkLeave (User_Name U))) ;;
  (if (size (Room_Users R') =? 0)%nat
   then reg ← getAllRooms; setAllRooms (delete (Room_Name R') reg)
   else ret tt) ;;
  Unlock (RoomMutex room) ;;
  Unlock allRoomsMutex.

Definition handleGroupMessage (msg : GroupMessage) (room user : ptr) : M (option error) :=
  Lock (RoomMutex room) ;;
  R ← derefRoom room;
  U ← derefUser user;
  broadcastMessage (Room_Users R) (Group (mkGroup (User_Name U) (Group_Text msg))) ;;
  Unlock (RoomMutex room) ;;
  ret None.

Definition handlePrivateMessage (msg : PrivateMessage) (room user : ptr) : M (option error) :=
  Lock (RoomMutex room) ;;
  R ← derefRoom room;
  match Room_Users R !! Private_To msg with
  | Some to =>
      U ← derefUser user;
      ok ← sendMessage to (Private (mkPrivate (User_Name U) "" (Private_Text msg)));
      Unlock (RoomMutex room) ;;
      ret (if ok : bool then None
           else Some "Failed to deliver private message to recipient.")
  | None =>
      Unlock (RoomMutex room) ;;
      ret (Some "Recipient not in room.")
  end.

(** ** The receive path of [ws]

    The variables [hasJoined], [room] and [user] that the goroutines of
    one connection share; [room] is [nil] until a join succeeds. *)
Record Session := mkSession {
  hasJoined : bool;
  room : option ptr;
  user : ptr
}.

(** What [readMessage] hands to the loop. *)
Inductive ReadResult :=
| ReadError (err : error)
| ReadOk (msg : Message).

(** The values the receive path puts on [errc] before it returns. *)
Inductive Fatal :=
| ErrRead (err : error)
| ErrUnmarshal (err : error)
| ErrUnknownType (t : MessageType)
| ErrSendFailed (err : error).

Inductive LoopResult :=
| Continue (s : Session)
| Return (s : Session) (err : Fatal).

(** A handler called on [room]: a nil pointer panics at its first use. *)
Definition nonnil (p : option ptr) : M ptr :=
  match p with
  | Some q => ret q
  | None => λ _, None
  end.

(** The [switch msg.Type]: [inl] is a [return] from inside a case, [inr]
    carries the variables and [err] as they are after the [switch]. *)
Definition dispatch (s : Session) (msg : Message) : M (Fatal + Session * option error) :=
  match Type_ msg with
  | TypeJoinMessage =>
      if hasJoined s then
        ret (inr (s, Some "You have already joined a room."))
      else
        match unmarshalJoin (Raw msg) with
        | inl err => ret (inl (ErrUnmarshal err))
        | inr decoded =>
            res ← handleJoinMessage decoded (user s);
            match res with
            | inl err => ret (inr (mkSession (hasJoined s) None (user s), Some err))
            | inr r => ret (inr (mkSession true (Some r) (user s), None))
            end
        end
  | TypeLeaveMessage =>
      if negb (hasJoined s) then
        ret (inr (s, Some "You need to join a room to do that."))
      else
        r ← nonnil (room s);
        handleLeaveMessage r (user s) ;;
        setUserName (user s) "" ;;
        ret (inr (mkSession false None (user s), None))
  | TypeGroupMessage =>
      if negb (hasJoined s) then
        ret (inr (s, Some "You need to join a room to do that."))
      else
        match unmarshalGroup (Raw msg) with
        | inl err => ret (inl (ErrUnmarshal err))
        | inr decoded =>
            r ← nonnil (room s);
            err ← handleGroupMessage decoded r (user s);
            ret (inr (s, err))
        end
  | TypePrivateMessage =>
      if negb (hasJoined s) then
        ret (inr (s, Some "You need to join a room to do that."))
      else
        match unmarshalPrivate (Raw msg) with
        | inl err => ret (inl (ErrUnmarshal err))
        | inr decoded =>
            r ← nonnil (room s);
            err ← handlePrivateMessage decoded r (user s);
            ret (inr (s, err))
        end
  | t => ret (inl (ErrUnknownType t))
  end.

(** One iteration of the receive loop. *)
Definition recvStep (s : Session) (rr : ReadResult) : M LoopResult :=
  match rr with
  | ReadError err => ret (Return s (ErrRead err))
  | ReadOk msg =>
      d ← dispatch s msg;
      match d with
      | inl fatal => ret (Return s fatal)
      | inr (s', None) => ret (Continue s')
      | inr (s', Some err) =>
          ok ← sendMessage (user s') (Error (mkError err));
          ret (if ok : bool then Continue s'
               else Return s' (ErrSendFailed err))
      end
  end.

(** ** Reading a message

    [readMessage]: what [c.ReadMessage] hands over (a frame or an error)
    is an input, and [json.Unmarshal] of a frame into a [Message] is a
    parameter.  The loop looks at the error first, so the message that is
    returned beside an error is never used. *)
Variable Frame : Type.
Variable unmarshalMessage : Frame → error + Message.

Definition readMessage (c : error + Frame) : ReadResult :=
  match c with
  | inl err => ReadError err
  | inr b =>
      match unmarshalMessage b with
      | inl err => ReadError err
      | inr msg => ReadOk msg
      end
  end.

(** ** Connections

    [ws] from the accepted connection to its end, with every handler and
    the teardown taken as one step.  A session is live while its receive
    path runs; the writer's own failures are not modelled. *)

(** The start of [ws]: a new user, not joined, [Leavec] open. *)
Definition connect : M Session :=
  λ st, let u := fresh (dom (users st)) in
        Some (mkSession false None u,
              mkState (allRooms st) (rooms st)
                      (<[u := mkUser "" false]> (users st)) (events st)).

(** [close(leavec)], by the writer when it takes [done]. *)
Definition closeLeavec (u : ptr) : M unit :=
  U ← derefUser u;
  modify (λ st, mkState (allRooms st) (rooms st)
                        (<[u := mkUser (User_Name U) true]> (users st))
                        (events st)).

(** The end of [ws] once the receive path has put its error on [errc]:
    the writer is told to stop, and the session leaves its room when it
    has joined one. *)
Definition teardown (s : Session) : M unit :=
  closeLeavec (user s) ;;
  if hasJoined s
  then r ← nonnil (room s); handleLeaveMessage r (user s)
  else ret tt.

Record System := mkSystem {
  sys_state : State;
  sessions : gmap nat Session
}.

Inductive step : System → System → Prop :=
| step_connect st ss s st' :
    connect st = Some (s, st') →
    step (mkSystem st ss) (mkSystem st' (<[fresh (dom ss) := s]> ss))
| step_recv st ss sid s rr s' st' :
    ss !! sid = Some s →
    recvStep s rr st = Some (Continue s', st') →
    step (mkSystem st ss) (mkSystem st' (<[sid := s']> ss))
| step_return st ss sid s rr s' err st' st'' :
    ss !! sid = Some s →
    recvStep s rr st = Some (Return s' err, st') →
    teardown s' st' = Some (tt, st'') →
    step (mkSystem st ss) (mkSystem st'' (delete sid ss)).

Inductive reachable : System → Prop :=
| reachable_init : reachable (mkSystem st_init ∅)
| reachable_step σ σ' : reachable σ → step σ σ' → reachable σ'.

(** ** Vocabulary of the specifications *)

(** The state with [evs] appended to the event log. *)
Definition add_events (st : State) (evs : list Event) : State :=
  mkState (allRooms st) (rooms st) (users st) (events st ++ evs).

(** Whether a send to [u] completes, in the user store [us]. *)
Definition delivered (us : gmap ptr User) (u : ptr) : bool :=
  match us !! u with
  | Some U => negb (User_Leavec U)
  | None => false
  end.

(** One send attempt of [msg] to each entry of [l], in that order. *)
Definition sends (us : gmap ptr User) (msg : SpecificMessage)
    (l : list (string * ptr)) : list Event :=
  (λ kv, EvSend kv.2 msg (delivered us kv.2)) <$> l.

(** Every member of a membership map is an allocated user. *)
Definition members_ok (st : State) (us : gmap string ptr) : Prop :=
  map_Forall (λ _ u, is_Some (users st !! u)) us.

(** No dangling pointers: the registry points to allocated rooms, and the
    rooms' members are allocated users. *)
Definition no_dangling (st : State) : Prop :=
  map_Forall (λ _ r, is_Some (rooms st !! r)) (allRooms st) ∧
  map_Forall (λ _ R, members_ok st (Room_Users R)) (rooms st).

Global Instance members_ok_dec st us : Decision (members_ok st us).
Proof. unfold members_ok. apply _. Defined.

Global Instance no_dangling_dec st : Decision (no_dangling st).
Proof. unfold no_dangling. apply _. Defined.

(** What [handleLeaveMessage] does to the state. *)
Definition leave_post (st : State) (r : ptr) (R : Room) (U : User) : State :=
  let us := delete (User_Name U) (Room_Users R) in
  mkState
    (if decide (us = ∅) then delete (Room_Name R) (allRooms st) else allRooms st)
    (<[r := mkRoom (Room_Name R) us]> (rooms st))
    (users st)
    (events st ++ [EvLock allRoomsMutex; EvLock (RoomMutex r)]
       ++ sends (users st) (Leave (mkLeave (User_Name U))) (range_order us)
       ++ [EvUnlock (RoomMutex r); EvUnlock allRoomsMutex]).

(** What a successful [handleJoinMessage] does to the state: [r] is the
    room joined, [R] that room before the insertion, and [locks] the
    events on the room's mutex. *)
Definition join_post (st : State) (msg : JoinMessage) (u : ptr) (U : User)
    (r : ptr) (R : Room) (locks : list Event) : State :=
  let us := <[Join_Name msg := u]> (Room_Users R) in
  let users' := <[u := mkUser (Join_Name msg) (User_Leavec U)]> (users st) in
  mkState
    (<[Join_Room msg := r]> (allRooms st))
    (<[r := mkRoom (Room_Name R) us]> (rooms st))
    users'
    (events st ++ [EvLock allRoomsMutex] ++ locks
       ++ [EvSend u (Roster (mkRoster (curUsers (mkRoom (Room_Name R) us) (Join_Name msg))))
             (delivered users' u)]
       ++ sends users' (Join (mkJoin (Join_Name msg) "")) (range_order us)
       ++ [EvUnlock allRoomsMutex]).

(** The nickname is taken in the room registered under [room]. *)
Definition name_in_use (st : State) (room name : string) : Prop :=
  ∃ r R, allRooms st !! room = Some r ∧ rooms st !! r = Some R
         ∧ is_Some (Room_Users R !! name).

(** The five ways through [handleJoinMessage], each with its result and
    final state. *)
Inductive JoinOutcome (msg : JoinMessage) (u : ptr) (U : User) (st : State) :
    error + ptr → State → Prop :=
| join_bad_room :
    bad_length (Join_Room msg) = true →
    JoinOutcome msg u U st
      (inl "Room name must be between 1 and 128 characters.") st
| join_bad_name :
    bad_length (Join_Room msg) = false →
    bad_length (Join_Name msg) = true →
    JoinOutcome msg u U st
      (inl "Nickname must be between 1 and 128 characters.") st
| join_in_use r R :
    bad_length (Join_Room msg) = false →
    bad_length (Join_Name msg) = false →
    allRooms st !! Join_Room msg = Some r →
    rooms st !! r = Some R →
    is_Some (Room_Users R !! Join_Name msg) →
    JoinOutcome msg u U st (inl "Nickname in use.")
      (add_events st [EvLock allRoomsMutex; EvLock (RoomMutex r);
                      EvUnlock (RoomMutex r); EvUnlock allRoomsMutex])
| join_existing r R :
    bad_length (Join_Room msg) = false →
    bad_length (Join_Name msg) = false →
    allRooms st !! Join_Room msg = Some r →
    rooms st !! r = Some R →
    Room_Users R !! Join_Name msg = None →
    members_ok st (Room_Users R) →
    JoinOutcome msg u U st (inr r)
      (join_post st msg u U r R [EvLock (RoomMutex r); EvUnlock (RoomMutex r)])
| join_new :
    bad_length (Join_Room msg) = false →
    bad_length (Join_Name msg) = false →
    allRooms st !! Join_Room msg = None →
    JoinOutcome msg u U st (inr (fresh (dom (rooms st))))
      (join_post st msg u U (fresh (dom (rooms st)))
                 (mkRoom (Join_Room msg) ∅) []).

(** ** Broadcasts *)

(** [evs] is one send attempt of [msg] to each member of [mp], in some
    order; an attempt completes unless the recipient's [Leavec] is closed. *)
Definition broadcast_to (us : gmap ptr User) (mp : gmap string ptr)
    (msg : SpecificMessage) (evs : list Event) : Prop :=
  evs ≡ₚ sends us msg (map_to_list mp).

(** ** The locking order *)

Definition Mutex_eqb (a b : Mutex) : bool :=
  match a, b with
  | allRoomsMutex, allRoomsMutex => true
  | RoomMutex x, RoomMutex y => (x =? y)%nat
  | _, _ => false
  end.

(** The lock and unlock events of a log, in order. *)
Fixpoint lock_trace (evs : list Event) : list Event :=
  match evs with
  | [] => []
  | EvSend _ _ _ :: evs' => lock_trace evs'
  | e :: evs' => e :: lock_trace evs'
  end.

(** The locking discipline, checked along a log with the mutexes [held]
    (the last one taken first): the registry mutex is taken only while no
    mutex is held, a room mutex is not taken twice, a mutex is released
    only when it is the last one taken, and nothing is held at the end. *)
Fixpoint lock_order_ok (held : list Mutex) (evs : list Event) : bool :=
  match evs with
  | [] => match held with [] => true | _ => false end
  | EvLock allRoomsMutex :: evs' =>
      match held with
      | [] => lock_order_ok [allRoomsMutex] evs'
      | _ => false
      end
  | EvLock (RoomMutex r) :: evs' =>
      negb (existsb (Mutex_eqb (RoomMutex r)) held)
      && lock_order_ok (RoomMutex r :: held) evs'
  | EvUnlock m :: evs' =>
      match held with
      | m' :: held' => Mutex_eqb m m' && lock_order_ok held' evs'
      | [] => false
      end
  | EvSend _ _ _ :: evs' => lock_order_ok held evs'
  end.

(** ** The room lifecycle invariant *)

(** The room object at [r] is in the registry. *)
Definition registered (st : State) (r : ptr) : Prop :=
  ∃ name, allRooms st !! name = Some r.

(** The registry maps a name to a room object of that name, and a room
    object is in the registry if and only if its [Users] map is not
    empty. *)
Definition room_lifecycle (st : State) : Prop :=
  (∀ name r, allRooms st !! name = Some r →
     ∃ R, rooms st !! r = Some R ∧ Room_Name R = name)
  ∧ (∀ r R, rooms st !! r = Some R → (registered st r ↔ Room_Users R ≠ ∅)).

(** ** Invariants of the running system *)

(** A live session: its user is allocated and its [Leavec] is open; when
    it has joined, it is a member of its room under its own name. *)
Definition session_ok (st : State) (s : Session) : Prop :=
  ∃ U, users st !! user s = Some U ∧ User_Leavec U = false
       ∧ if hasJoined s
         then ∃ r R, room s = Some r ∧ rooms st !! r = Some R
                     ∧ Room_Users R !! User_Name U = Some (user s)
         else room s = None.

(** The member [v] of room [r] under [name] is the user of a live session
    that has joined [r], and [name] is that user's name. *)
Definition member_ok (st : State) (ss : gmap nat Session)
    (r : ptr) (name : string) (v : ptr) : Prop :=
  ∃ sid s V, ss !! sid = Some s ∧ user s = v ∧ hasJoined s = true
             ∧ room s = Some r ∧ users st !! v = Some V ∧ User_Name V = name.

Record sys_inv (σ : System) : Prop := mk_sys_inv {
  inv_lifecycle : room_lifecycle (sys_state σ);
  inv_sessions : ∀ sid s,
    sessions σ !! sid = Some s → session_ok (sys_state σ) s;
  inv_users : ∀ sid1 sid2 s1 s2,
    sessions σ !! sid1 = Some s1 → sessions σ !! sid2 = Some s2 →
    user s1 = user s2 → sid1 = sid2;
  inv_members : ∀ r R name v,
    rooms (sys_state σ) !! r = Some R → Room_Users R !! name = Some v →
    member_ok (sys_state σ) (sessions σ) r name v
}.

(** ** Vocabulary of the receive path *)

(** The inputs that end the receive path, each with the error put on
    [errc]: a failed read, a payload that does not decode in a state where
    the message is accepted, and a message of another type. *)
Inductive fatal_input (s : Session) : ReadResult → Fatal → Prop :=
| fatal_read err :
    fatal_input s (ReadError err) (ErrRead err)
| fatal_join msg err :
    Type_ msg = TypeJoinMessage → hasJoined s = false →
    unmarshalJoin (Raw msg) = inl err →
    fatal_input s (ReadOk msg) (ErrUnmarshal err)
| fatal_group msg err :
    Type_ msg = TypeGroupMessage → hasJoined s = true →
    unmarshalGroup (Raw msg) = inl err →
    fatal_input s (ReadOk msg) (ErrUnmarshal err)
| fatal_private msg err :
    Type_ msg = TypePrivateMessage → hasJoined s = true →
    unmarshalPrivate (Raw msg) = inl err →
    fatal_input s (ReadOk msg) (ErrUnmarshal err)
| fatal_type msg :
    Type_ msg ≠ TypeJoinMessage → Type_ msg ≠ TypeLeaveMessage →
    Type_ msg ≠ TypeGroupMessage → Type_ msg ≠ TypePrivateMessage →
    fatal_input s (ReadOk msg) (ErrUnknownType (Type_ msg)).

(** Every name that the state holds has passed the length check of
    [handleJoinMessage]: the registry's keys, the rooms' names and the
    nicknames of the rooms' members. *)
Definition names_ok (st : State) : Prop :=
  (∀ name r, allRooms st !! name = Some r → bad_length name = false)
  ∧ (∀ r R, rooms st !! r = Some R →
       bad_length (Room_Name R) = false
       ∧ ∀ n v, Room_Users R !! n = Some v → bad_length n = false).

(** ** A system used as an example *)

(** The two connections of [st_two]: session 0 has joined the room object
    0, session 1 has not joined. *)
Definition sys_two : System :=
  mkSystem st_two
    (<[1 := mkSession false None 1]> (<[0 := mkSession true (Some 0) 0]> ∅)).

(** ** Running the monad *)

Lemma run_bind {A B} (m : M A) (k : A → M B) st :
  (m ≫= k) st = match m st with Some (a, st') => k a st' | None => None end.
Proof. reflexivity. Qed.

Lemma add_events_nil st : add_events st [] = st.
Proof. destruct st; unfold add_events; simpl. by rewrite app_nil_r. Qed.

Lemma add_events_app st e1 e2 :
  add_events (add_events st e1) e2 = add_events st (e1 ++ e2).
Proof. unfold add_events; simpl. by rewrite app_assoc. Qed.

Lemma sendMessage_ok u msg st U :
  users st !! u = Some U →
  sendMessage u msg st
  = Some (negb (User_Leavec U), add_events st [EvSend u msg (delivered (users st) u)]).
Proof.
  intros HU. unfold sendMessage, delivered.
  rewrite run_bind. unfold derefUser. rewrite HU. reflexivity.
Qed.

Lemma sendAll_ok l msg st :
  Forall (λ kv, is_Some (users st !! kv.2)) l →
  sendAll l msg st = Some (tt, add_events st (sends (users st) msg l)).
Proof.
  revert st. induction l as [|[name u] l IH]; intros st Hl.
  - simpl. by rewrite add_events_nil.
  - apply Forall_cons in Hl as [[U HU] Hl]. simpl in HU.
    cbn [sendAll]. rewrite run_bind, (sendMessage_ok _ _ _ _ HU).
    rewrite IH by done. by rewrite add_events_app.
Qed.

Lemma broadcastMessage_ok us msg st :
  members_ok st us →
  broadcastMessage us msg st
  = Some (tt, add_events st (sends (users st) msg (range_order us))).
Proof.
  intros Hus. apply sendAll_ok.
  apply Forall_forall. intros [name u] Hin. simpl.
  rewrite range_order_perm in Hin.
  apply elem_of_map_to_list in Hin. by apply (Hus name).
Qed.

Ltac msimpl :=
  unfold add_events;
  cbn [allRooms rooms users events Room_Users Room_Name
       User_Name User_Leavec fst snd].

Ltac mstep lem :=
  rewrite run_bind;
  erewrite lem by (msimpl; first [eassumption | apply lookup_insert_eq | eauto]);
  msimpl.

Lemma Lock_allRooms_ok st :
  Lock allRoomsMutex st = Some (tt, add_events st [EvLock allRoomsMutex]).
Proof. reflexivity. Qed.

Lemma Unlock_allRooms_ok st :
  Unlock allRoomsMutex st = Some (tt, add_events st [EvUnlock allRoomsMutex]).
Proof. reflexivity. Qed.

Lemma Lock_room_ok r st R :
  rooms st !! r = Some R →
  Lock (RoomMutex r) st = Some (tt, add_events st [EvLock (RoomMutex r)]).
Proof.
  intros HR. unfold Lock. rewrite run_bind. unfold derefRoom. by rewrite HR.
Qed.

Lemma Unlock_room_ok r st R :
  rooms st !! r = Some R →
  Unlock (RoomMutex r) st = Some (tt, add_events st [EvUnlock (RoomMutex r)]).
Proof.
  intros HR. unfold Unlock. rewrite run_bind. unfold derefRoom. by rewrite HR.
Qed.

Lemma derefRoom_ok r st R :
  rooms st !! r = Some R → derefRoom r st = Some (R, st).
Proof. intros HR. unfold derefRoom. by rewrite HR. Qed.

Lemma derefUser_ok u st U :
  users st !! u = Some U → derefUser u st = Some (U, st).
Proof. intros HU. unfold derefUser. by rewrite HU. Qed.

Lemma setRoomUsers_ok r us st R :
  rooms st !! r = Some R →
  setRoomUsers r us st
  = Some (tt, mkState (allRooms st) (<[r := mkRoom (Room_Name R) us]> (rooms st))
                      (users st) (events st)).
Proof.
  intros HR. unfold setRoomUsers. by rewrite run_bind, (derefRoom_ok _ _ _ HR).
Qed.

Lemma setUserName_ok u name st U :
  users st !! u = Some U →
  setUserName u name st
  = Some (tt, mkState (allRooms st) (rooms st)
                      (<[u := mkUser name (User_Leavec U)]> (users st)) (events st)).
Proof.
  intros HU. unfold setUserName. by rewrite run_bind, (derefUser_ok _ _ _ HU).
Qed.

Lemma handleLeaveMessage_ok r u st R U :
  rooms st !! r = Some R →
  users st !! u = Some U →
  members_ok st (Room_Users R) →
  handleLeaveMessage r u st = Some (tt, leave_post st r R U).
Proof.
  intros HR HU Hm. unfold handleLeaveMessage, leave_post.
  mstep Lock_allRooms_ok. mstep Lock_room_ok.
  mstep derefRoom_ok. mstep derefUser_ok.
  mstep setRoomUsers_ok. mstep derefRoom_ok.
  rewrite run_bind, broadcastMessage_ok; msimpl.
  2:{ intros name v Hv. apply lookup_delete_Some in Hv as [_ Hv]. by apply (Hm name). }
  rewrite run_bind.
  destruct (decide (delete (User_Name U) (Room_Users R) = ∅)) as [He|Hne].
  - rewrite He, map_size_empty. cbn [Nat.eqb].
    rewrite run_bind. cbn [getAllRooms setAllRooms modify]. msimpl.
    mstep Unlock_room_ok. rewrite Unlock_allRooms_ok. msimpl.
    by rewrite <- !app_assoc.
  - apply map_size_non_empty_iff in Hne. apply Nat.eqb_neq in Hne. rewrite Hne.
    cbn [ret mret M_ret].
    mstep Unlock_room_ok. rewrite Unlock_allRooms_ok. msimpl.
    by rewrite <- !app_assoc.
Qed.

Lemma members_ok_join st us name u U' :
  members_ok st us →
  map_Forall (λ _ v, is_Some (<[u := U']> (users st) !! v)) (<[name := u]> us).
Proof.
  intros Hm k v Hv. destruct (decide (v = u)) as [->|Hne].
  - rewrite lookup_insert_eq. eauto.
  - rewrite lookup_insert_ne by done.
    apply lookup_insert_Some in Hv as [[_ ->]|[_ Hv]]; [done|].
    by apply (Hm k).
Qed.

Lemma handleJoinMessage_bad_room msg u st :
  bad_length (Join_Room msg) = true →
  handleJoinMessage msg u st
  = Some (inl "Room name must be between 1 and 128 characters.", st).
Proof. intros H. unfold handleJoinMessage. by rewrite H. Qed.

Lemma handleJoinMessage_bad_name msg u st :
  bad_length (Join_Room msg) = false →
  bad_length (Join_Name msg) = true →
  handleJoinMessage msg u st
  = Some (inl "Nickname must be between 1 and 128 characters.", st).
Proof. intros H1 H2. unfold handleJoinMessage. by rewrite H1, H2. Qed.

Lemma handleJoinMessage_in_use msg u st r R :
  bad_length (Join_Room msg) = false →
  bad_length (Join_Name msg) = false →
  allRooms st !! Join_Room msg = Some r →
  rooms st !! r = Some R →
  is_Some (Room_Users R !! Join_Name msg) →
  handleJoinMessage msg u st
  = Some (inl "Nickname in use.",
          add_events st [EvLock allRoomsMutex; EvLock (RoomMutex r);
                         EvUnlock (RoomMutex r); EvUnlock allRoomsMutex]).
Proof.
  intros H1 H2 Hr HR [v Hv]. unfold handleJoinMessage. rewrite H1, H2.
  mstep Lock_allRooms_ok. rewrite run_bind. unfold joinRoom.
  rewrite run_bind. cbn [getAllRooms]. msimpl. rewrite Hr.
  mstep Lock_room_ok. mstep derefRoom_ok. rewrite Hv.
  mstep Unlock_room_ok. cbn [ret mret M_ret].
  rewrite run_bind, Unlock_allRooms_ok. msimpl.
  by rewrite <- !app_assoc.
Qed.

Lemma handleJoinMessage_existing msg u st r R U :
  bad_length (Join_Room msg) = false →
  bad_length (Join_Name msg) = false →
  allRooms st !! Join_Room msg = Some r →
  rooms st !! r = Some R →
  Room_Users R !! Join_Name msg = None →
  users st !! u = Some U →
  members_ok st (Room_Users R) →
  handleJoinMessage msg u st
  = Some (inr r, join_post st msg u U r R
                   [EvLock (RoomMutex r); EvUnlock (RoomMutex r)]).
Proof.
  intros H1 H2 Hr HR Hn HU Hm. unfold handleJoinMessage. rewrite H1, H2.
  mstep Lock_allRooms_ok. rewrite run_bind. unfold joinRoom.
  rewrite run_bind. cbn [getAllRooms]. msimpl. rewrite Hr.
  mstep Lock_room_ok. mstep derefRoom_ok. rewrite Hn.
  mstep setRoomUsers_ok. mstep Unlock_room_ok. cbn [ret mret M_ret].
  mstep setUserName_ok. mstep derefRoom_ok. mstep derefUser_ok.
  mstep sendMessage_ok.
  rewrite run_bind, broadcastMessage_ok; msimpl;
    [|by apply members_ok_join].
  rewrite run_bind, Unlock_allRooms_ok. msimpl. cbn [ret mret M_ret].
  unfold join_post. rewrite (insert_id (allRooms st)) by done.
  by rewrite <- !app_assoc.
Qed.

Lemma handleJoinMessage_new msg u st U :
  bad_length (Join_Room msg) = false →
  bad_length (Join_Name msg) = false →
  allRooms st !! Join_Room msg = None →
  users st !! u = Some U →
  handleJoinMessage msg u st
  = Some (inr (fresh (dom (rooms st))),
          join_post st msg u U (fresh (dom (rooms st)))
                    (mkRoom (Join_Room msg) ∅) []).
Proof.
  intros H1 H2 Hr HU. unfold handleJoinMessage. rewrite H1, H2.
  mstep Lock_allRooms_ok. rewrite run_bind. unfold joinRoom.
  rewrite run_bind. cbn [getAllRooms]. msimpl. rewrite Hr.
  rewrite run_bind. cbn [newRoom]. msimpl.
  mstep derefRoom_ok. mstep setRoomUsers_ok.
  rewrite run_bind. cbn [getAllRooms]. msimpl.
  rewrite run_bind. cbn [setAllRooms modify]. msimpl. cbn [ret mret M_ret].
  rewrite insert_insert_eq.
  mstep setUserName_ok. mstep derefRoom_ok. mstep derefUser_ok.
  mstep sendMessage_ok.
  rewrite run_bind, broadcastMessage_ok; msimpl;
    [|by apply members_ok_join].
  rewrite run_bind, Unlock_allRooms_ok. msimpl. cbn [ret mret M_ret].
  unfold join_post. msimpl. by rewrite <- !app_assoc.
Qed.

Lemma handleGroupMessage_ok msg r u st R U :
  rooms st !! r = Some R →
  users st !! u = Some U →
  members_ok st (Room_Users R) →
  handleGroupMessage msg r u st
  = Some (None,
          add_events st
            ([EvLock (RoomMutex r)]
               ++ sends (users st) (Group (mkGroup (User_Name U) (Group_Text msg)))
                    (range_order (Room_Users R))
               ++ [EvUnlock (RoomMutex r)])).
Proof.
  intros HR HU Hm. unfold handleGroupMessage.
  mstep Lock_room_ok. mstep derefRoom_ok. mstep derefUser_ok.
  rewrite run_bind, broadcastMessage_ok; msimpl; [|done].
  mstep Unlock_room_ok. cbn [ret mret M_ret].
  by rewrite <- !app_assoc.
Qed.

Lemma handlePrivateMessage_member msg r u st R U to T :
  rooms st !! r = Some R →
  users st !! u = Some U →
  Room_Users R !! Private_To msg = Some to →
  users st !! to = Some T →
  handlePrivateMessage msg r u st
  = Some (if User_Leavec T
          then Some "Failed to deliver private message to recipient."
          else None,
          add_events st
            [EvLock (RoomMutex r);
             EvSend to (Private (mkPrivate (User_Name U) "" (Private_Text msg)))
               (negb (User_Leavec T));
             EvUnlock (RoomMutex r)]).
Proof.
  intros HR HU Hto HT. unfold handlePrivateMessage.
  mstep Lock_room_ok. mstep derefRoom_ok. rewrite Hto.
  mstep derefUser_ok. mstep sendMessage_ok.
  mstep Unlock_room_ok. cbn [ret mret M_ret].
  unfold delivered. rewrite HT. rewrite <- !app_assoc.
  by destruct (User_Leavec T).
Qed.

Lemma handlePrivateMessage_absent msg r u st R :
  rooms st !! r = Some R →
  Room_Users R !! Private_To msg = None →
  handlePrivateMessage msg r u st
  = Some (Some "Recipient not in room.",
          add_events st [EvLock (RoomMutex r); EvUnlock (RoomMutex r)]).
Proof.
  intros HR Hto. unfold handlePrivateMessage.
  mstep Lock_room_ok. mstep derefRoom_ok. rewrite Hto.
  mstep Unlock_room_ok. cbn [ret mret M_ret].
  by rewrite <- !app_assoc.
Qed.

(** ** The outcomes of [handleJoinMessage] *)

Lemma bad_length_false s :
  bad_length s = false ↔ (1 ≤ String.length s ≤ 128)%nat.
Proof.
  unfold bad_length. rewrite orb_false_iff, Nat.eqb_neq, Nat.ltb_ge. lia.
Qed.

Lemma bad_length_true s :
  bad_length s = true ↔ ¬ (1 ≤ String.length s ≤ 128)%nat.
Proof.
  rewrite <- bad_length_false. destruct (bad_length s); naive_solver.
Qed.

Lemma no_dangling_room st name r :
  no_dangling st → allRooms st !! name = Some r →
  ∃ R, rooms st !! r = Some R ∧ members_ok st (Room_Users R).
Proof.
  intros [H1 H2] Hr. destruct (H1 _ _ Hr) as [R HR].
  exists R. split; [done|]. by apply (H2 r).
Qed.

Lemma handleJoinMessage_outcome msg u st U :
  no_dangling st →
  users st !! u = Some U →
  ∃ res st', handleJoinMessage msg u st = Some (res, st')
             ∧ JoinOutcome msg u U st res st'.
Proof.
  intros Hnd HU.
  destruct (bad_length (Join_Room msg)) eqn:H1.
  { eexists _, _. split; [by apply handleJoinMessage_bad_room|by constructor]. }
  destruct (bad_length (Join_Name msg)) eqn:H2.
  { eexists _, _. split; [by apply handleJoinMessage_bad_name|by constructor]. }
  destruct (allRooms st !! Join_Room msg) as [r|] eqn:Hr.
  - destruct (no_dangling_room _ _ _ Hnd Hr) as (R & HR & Hm).
    destruct (Room_Users R !! Join_Name msg) as [v|] eqn:Hv.
    + eexists _, _. split.
      * eapply handleJoinMessage_in_use; eauto.
      * econstructor; eauto.
    + eexists _, _. split.
      * eapply handleJoinMessage_existing; eauto.
      * econstructor; eauto.
  - eexists _, _. split.
    + eapply handleJoinMessage_new; eauto.
    + by constructor.
Qed.

(** ** Properties of broadcasts *)

Lemma sends_range us mp msg :
  broadcast_to us mp msg (sends us msg (range_order mp)).
Proof. unfold broadcast_to, sends. by rewrite range_order_perm. Qed.

Lemma broadcast_to_elem us mp msg evs e :
  broadcast_to us mp msg evs →
  e ∈ evs ↔ ∃ name v, mp !! name = Some v ∧ e = EvSend v msg (delivered us v).
Proof.
  intros Hb. rewrite Hb. unfold sends. rewrite list_elem_of_fmap. split.
  - intros ([name v] & -> & Hin). apply elem_of_map_to_list in Hin. by exists name, v.
  - intros (name & v & Hv & ->). exists (name, v). split; [done|].
    by apply elem_of_map_to_list.
Qed.

Lemma broadcast_to_length us mp msg evs :
  broadcast_to us mp msg evs → length evs = size mp.
Proof.
  intros Hb. rewrite Hb. unfold sends. by rewrite length_fmap, length_map_to_list.
Qed.

Lemma delivered_lookup us v V :
  us !! v = Some V → delivered us v = negb (User_Leavec V).
Proof. intros H. unfold delivered. by rewrite H. Qed.

(** ** Leaving, group and private messages *)

(** C6: [handleLeaveMessage] deletes the user's name from the room's
    membership and then broadcasts a Leave message announcing that name to
    exactly the remaining members, never to the departing user; it has no
    error result, and when the name is not a member the membership is
    unchanged and the Leave message is still broadcast. *)
Theorem leave_broadcasts_to_remaining r u st R U :
  rooms st !! r = Some R →
  users st !! u = Some U →
  members_ok st (Room_Users R) →
  let remaining := delete (User_Name U) (Room_Users R) in
  let notice := Leave (mkLeave (User_Name U)) in
  ∃ st' bcast,
    handleLeaveMessage r u st = Some (tt, st')
    ∧ rooms st' !! r = Some (mkRoom (Room_Name R) remaining)
    ∧ (∀ r', r' ≠ r → rooms st' !! r' = rooms st !! r')
    ∧ users st' = users st
    ∧ events st' = events st ++ [EvLock allRoomsMutex; EvLock (RoomMutex r)]
                     ++ bcast ++ [EvUnlock (RoomMutex r); EvUnlock allRoomsMutex]
    ∧ broadcast_to (users st) remaining notice bcast
    ∧ (∀ e, e ∈ bcast ↔
         ∃ name v, name ≠ User_Name U ∧ Room_Users R !! name = Some v
                   ∧ e = EvSend v notice (delivered (users st) v))
    ∧ remaining !! User_Name U = None
    ∧ ((∀ name, Room_Users R !! name = Some u → name = User_Name U) →
       ∀ m ok, EvSend u m ok ∉ bcast)
    ∧ (Room_Users R !! User_Name U = None →
       rooms st' !! r = Some R ∧ broadcast_to (users st) (Room_Users R) notice bcast).
Proof.
  intros HR HU Hm remaining notice.
  exists (leave_post st r R U), (sends (users st) notice (range_order remaining)).
  assert (Hb : broadcast_to (users st) remaining notice
                 (sends (users st) notice (range_order remaining)))
    by apply sends_range.
  assert (Hel : ∀ e, e ∈ sends (users st) notice (range_order remaining) ↔
            ∃ name v, name ≠ User_Name U ∧ Room_Users R !! name = Some v
                      ∧ e = EvSend v notice (delivered (users st) v)).
  { intros e. rewrite (broadcast_to_elem _ _ _ _ e Hb). unfold remaining.
    split.
    - intros (name & v & Hv & ->). apply lookup_delete_Some in Hv as [Hne Hv].
      by exists name, v.
    - intros (name & v & Hne & Hv & ->). exists name, v. split; [|done].
      by apply lookup_delete_Some. }
  split; [by apply handleLeaveMessage_ok|].
  split; [apply lookup_insert_eq|].
  split; [intros r' Hr'; simpl; by rewrite lookup_insert_ne|].
  split; [done|]. split; [done|]. split; [done|]. split; [done|].
  split; [apply lookup_delete_eq|].
  split.
  - intros Hinj m ok Hin. apply Hel in Hin as (name & v & Hne & Hv & Heq).
    inversion Heq; subst. by apply Hne, Hinj.
  - intros Hnone.
    assert (Heq : remaining = Room_Users R) by by apply delete_id.
    split; [|by rewrite <- Heq].
    simpl. rewrite lookup_insert_eq. fold remaining. rewrite Heq. by destruct R.
Qed.

(** C7: [handleGroupMessage] returns no error, and broadcasts a Group
    message carrying the given text and the sender's current name to the
    room's full membership, the sender included; the registry, the rooms
    and the users are unchanged. *)
Theorem group_broadcasts_to_all msg r u st R U :
  rooms st !! r = Some R →
  users st !! u = Some U →
  members_ok st (Room_Users R) →
  let copy := Group (mkGroup (User_Name U) (Group_Text msg)) in
  ∃ st' bcast,
    handleGroupMessage msg r u st = Some (None, st')
    ∧ allRooms st' = allRooms st ∧ rooms st' = rooms st ∧ users st' = users st
    ∧ events st' = events st ++ [EvLock (RoomMutex r)] ++ bcast
                     ++ [EvUnlock (RoomMutex r)]
    ∧ broadcast_to (users st) (Room_Users R) copy bcast
    ∧ length bcast = size (Room_Users R)
    ∧ (Room_Users R !! User_Name U = Some u →
       EvSend u copy (negb (User_Leavec U)) ∈ bcast).
Proof.
  intros HR HU Hm copy.
  eexists _, (sends (users st) copy (range_order (Room_Users R))).
  assert (Hb : broadcast_to (users st) (Room_Users R) copy
                 (sends (users st) copy (range_order (Room_Users R))))
    by apply sends_range.
  split; [by eapply handleGroupMessage_ok|].
  do 5 (split; [done|]).
  split; [by eapply broadcast_to_length|].
  intros Hself. apply (broadcast_to_elem _ _ _ _ _ Hb).
  exists (User_Name U), u. split; [done|].
  by rewrite (delivered_lookup _ _ _ HU).
Qed.

(** C3: [handlePrivateMessage] returns no error exactly when the target
    name is a member of the room and the send to that member completes;
    it returns the delivery-failure error when the target is a member whose
    [Leavec] is closed, and the recipient-not-found error when the target
    is not a member.  The one message it sends is a Private message with
    the sender's current name and the given text. *)
Theorem private_outcomes msg r u st R U :
  rooms st !! r = Some R →
  users st !! u = Some U →
  members_ok st (Room_Users R) →
  let copy := Private (mkPrivate (User_Name U) "" (Private_Text msg)) in
  ∃ res st',
    handlePrivateMessage msg r u st = Some (res, st')
    ∧ allRooms st' = allRooms st ∧ rooms st' = rooms st ∧ users st' = users st
    ∧ (res = None ↔
       ∃ to, Room_Users R !! Private_To msg = Some to
             ∧ delivered (users st) to = true)
    ∧ match Room_Users R !! Private_To msg with
      | Some to =>
          res = (if delivered (users st) to then None
                 else Some "Failed to deliver private message to recipient.")
          ∧ events st' = events st
              ++ [EvLock (RoomMutex r);
                  EvSend to copy (delivered (users st) to);
                  EvUnlock (RoomMutex r)]
      | None =>
          res = Some "Recipient not in room."
          ∧ events st' = events st
              ++ [EvLock (RoomMutex r); EvUnlock (RoomMutex r)]
      end.
Proof.
  intros HR HU Hm copy.
  destruct (Room_Users R !! Private_To msg) as [to|] eqn:Hto.
  - destruct (Hm _ _ Hto) as [T HT].
    eexists _, _. split; [by eapply handlePrivateMessage_member|].
    do 3 (split; [done|]).
    pose proof (delivered_lookup _ _ _ HT) as Hd. rewrite Hd.
    split; [|by destruct (User_Leavec T)].
    destruct (User_Leavec T); simpl in *; split; try done.
    + intros (? & [= <-] & Hd'). congruence.
    + intros _. by exists to.
  - eexists _, _. split; [by eapply handlePrivateMessage_absent|].
    do 3 (split; [done|]). split; [|done].
    split; [done|]. by intros (? & ? & _).
Qed.

(** C10: the lookup of the target of a Private message does not exclude
    the sender: a message whose target is the sender's own nickname finds
    the sender as a member and is sent to the sender, under the sender's
    own name; the result is never the recipient-not-found error. *)
Theorem private_to_self msg r u st R U :
  rooms st !! r = Some R →
  users st !! u = Some U →
  Room_Users R !! User_Name U = Some u →
  Private_To msg = User_Name U →
  ∃ res st',
    handlePrivateMessage msg r u st = Some (res, st')
    ∧ res ≠ Some "Recipient not in room."
    ∧ (User_Leavec U = false → res = None)
    ∧ events st' = events st
        ++ [EvLock (RoomMutex r);
            EvSend u (Private (mkPrivate (User_Name U) "" (Private_Text msg)))
              (negb (User_Leavec U));
            EvUnlock (RoomMutex r)].
Proof.
  intros HR HU Hself Hto. rewrite <- Hto in Hself.
  eexists _, _. split; [by eapply handlePrivateMessage_member|].
  split; [by destruct (User_Leavec U)|].
  split; [by intros ->|done].
Qed.

(** ** Errors of [handleJoinMessage] *)

(** C2: [handleJoinMessage] returns an error if and only if the room name's
    length is outside [1,128], or the nickname's length is outside [1,128],
    or the room exists and already has a member under the nickname; and
    when it returns an error, the registry, every room and every user (the
    joining user's name included) are as before. *)
Theorem join_error_iff msg u st U :
  no_dangling st →
  users st !! u = Some U →
  ∃ res st',
    handleJoinMessage msg u st = Some (res, st')
    ∧ ((∃ err, res = inl err)
       ↔ (¬ (1 ≤ String.length (Join_Room msg) ≤ 128)%nat
          ∨ ¬ (1 ≤ String.length (Join_Name msg) ≤ 128)%nat
          ∨ name_in_use st (Join_Room msg) (Join_Name msg)))
    ∧ ((∃ err, res = inl err) →
       allRooms st' = allRooms st ∧ rooms st' = rooms st ∧ users st' = users st).
Proof.
  intros Hnd HU.
  destruct (handleJoinMessage_outcome msg u st U Hnd HU) as (res & st' & Hrun & Hout).
  exists res, st'. split; [done|].
  destruct Hout as [H1|H1 H2|r R H1 H2 Hr HR Hin|r R H1 H2 Hr HR Hn Hm|H1 H2 Hr].
  - split; [|done]. split; [|by eauto].
    intros _. left. by apply bad_length_true.
  - split; [|done]. split; [|by eauto].
    intros _. right; left. by apply bad_length_true.
  - split; [|done]. split; [|by eauto].
    intros _. right; right. by exists r, R.
  - split; [|by intros [? ?]]. split; [by intros [? ?]|].
    apply bad_length_false in H1, H2.
    intros [?|[?|(r' & R' & Hr' & HR' & [v Hv])]]; [done..|].
    congruence.
  - split; [|by intros [? ?]]. split; [by intros [? ?]|].
    apply bad_length_false in H1, H2.
    intros [?|[?|(r' & R' & Hr' & _)]]; [done..|].
    congruence.
Qed.

(** ** Successful joins *)

Lemma join_success msg u st U :
  no_dangling st →
  users st !! u = Some U →
  (1 ≤ String.length (Join_Room msg) ≤ 128)%nat →
  (1 ≤ String.length (Join_Name msg) ≤ 128)%nat →
  ¬ name_in_use st (Join_Room msg) (Join_Name msg) →
  ∃ r R locks,
    handleJoinMessage msg u st = Some (inr r, join_post st msg u U r R locks)
    ∧ Room_Users R !! Join_Name msg = None
    ∧ ((allRooms st !! Join_Room msg = Some r ∧ rooms st !! r = Some R
        ∧ locks = [EvLock (RoomMutex r); EvUnlock (RoomMutex r)])
       ∨ (allRooms st !! Join_Room msg = None ∧ rooms st !! r = None
          ∧ R = mkRoom (Join_Room msg) ∅ ∧ locks = [])).
Proof.
  intros Hnd HU Hl1 Hl2 Hfree.
  destruct (handleJoinMessage_outcome msg u st U Hnd HU) as (res & st' & Hrun & Hout).
  destruct Hout as [H1|H1 H2|r R H1 H2 Hr HR Hin|r R H1 H2 Hr HR Hn Hm|H1 H2 Hr].
  - apply bad_length_true in H1. done.
  - apply bad_length_true in H2. done.
  - destruct Hfree. by exists r, R.
  - exists r, R, [EvLock (RoomMutex r); EvUnlock (RoomMutex r)].
    split; [done|]. split; [done|]. by left.
  - exists (fresh (dom (rooms st))), (mkRoom (Join_Room msg) ∅), [].
    split; [done|]. split; [done|]. right.
    split; [done|]. split; [|done].
    apply not_elem_of_dom, is_fresh.
Qed.

Lemma elem_of_range_keys (us : gmap string ptr) n :
  n ∈ (range_order us).*1 ↔ is_Some (us !! n).
Proof.
  rewrite range_order_perm, list_elem_of_fmap. split.
  - intros ([k v] & -> & Hin). apply elem_of_map_to_list in Hin. by exists v.
  - intros [v Hv]. exists (n, v). split; [done|]. by apply elem_of_map_to_list.
Qed.

Lemma curUsers_NoDup R self : NoDup (curUsers R self).
Proof.
  unfold curUsers. apply NoDup_filter.
  rewrite range_order_perm. apply NoDup_fst_map_to_list.
Qed.

Lemma elem_of_curUsers R self n :
  n ∈ curUsers R self ↔ is_Some (Room_Users R !! n) ∧ n ≠ self.
Proof.
  unfold curUsers. rewrite list_elem_of_filter, elem_of_range_keys. tauto.
Qed.

Lemma sends_msg us msg l v m ok : EvSend v m ok ∈ sends us msg l → m = msg.
Proof.
  unfold sends. rewrite list_elem_of_fmap. by intros (kv & [= -> -> ->] & _).
Qed.

(** C4: on a successful join the joining user is sent one Roster message,
    whose list holds exactly the names of the room's members other than
    the joining nickname, each once; it is empty for the first member of a
    new room; and the joining user's [Name] is the requested nickname. *)
Theorem join_sends_roster msg u st U :
  no_dangling st →
  users st !! u = Some U →
  (1 ≤ String.length (Join_Room msg) ≤ 128)%nat →
  (1 ≤ String.length (Join_Name msg) ≤ 128)%nat →
  ¬ name_in_use st (Join_Room msg) (Join_Name msg) →
  ∃ r st' R' U' pre names post,
    handleJoinMessage msg u st = Some (inr r, st')
    ∧ rooms st' !! r = Some R'
    ∧ users st' !! u = Some U'
    ∧ User_Name U' = Join_Name msg
    ∧ events st' = events st ++ pre
        ++ [EvSend u (Roster (mkRoster names)) (negb (User_Leavec U))] ++ post
    ∧ NoDup names
    ∧ (∀ n, n ∈ names ↔ is_Some (Room_Users R' !! n) ∧ n ≠ Join_Name msg)
    ∧ (∀ v m ok, EvSend v (Roster m) ok ∉ pre ++ post)
    ∧ (allRooms st !! Join_Room msg = None → names = []).
Proof.
  intros Hnd HU Hl1 Hl2 Hfree.
  destruct (join_success msg u st U Hnd HU Hl1 Hl2 Hfree)
    as (r & R & locks & Hrun & Hn & Hcase).
  set (us := <[Join_Name msg := u]> (Room_Users R)).
  set (R' := mkRoom (Room_Name R) us).
  exists r, (join_post st msg u U r R locks), R',
    (mkUser (Join_Name msg) (User_Leavec U)),
    ([EvLock allRoomsMutex] ++ locks), (curUsers R' (Join_Name msg)),
    (sends (<[u := mkUser (Join_Name msg) (User_Leavec U)]> (users st))
           (Join (mkJoin (Join_Name msg) "")) (range_order us)
     ++ [EvUnlock allRoomsMutex]).
  split; [done|].
  split; [apply lookup_insert_eq|].
  split; [apply lookup_insert_eq|].
  split; [done|].
  split.
  { simpl. unfold delivered. rewrite lookup_insert_eq. simpl.
    by rewrite <- ?app_assoc. }
  split; [apply curUsers_NoDup|].
  split; [apply elem_of_curUsers|].
  split.
  { intros v m ok Hin. rewrite !elem_of_app in Hin.
    destruct Hin as [[Hin|Hin]|[Hin|Hin]].
    - apply list_elem_of_singleton in Hin. done.
    - destruct Hcase as [(_ & _ & ->)|(_ & _ & _ & ->)].
      + rewrite elem_of_cons, list_elem_of_singleton in Hin. by destruct Hin.
      + by apply elem_of_nil in Hin.
    - by apply sends_msg in Hin.
    - apply list_elem_of_singleton in Hin. done. }
  intros Hnone. destruct Hcase as [(Hr & _)|(_ & _ & -> & _)]; [congruence|].
  apply elem_of_nil_inv. intros n Hin.
  apply elem_of_curUsers in Hin as [[v Hv] Hne]. unfold R', us in Hv. simpl in Hv.
  rewrite lookup_insert_ne in Hv by done. by rewrite lookup_empty in Hv.
Qed.

(** C5: after a successful join the Join message announcing the new
    nickname is broadcast to the room's membership as it is after the
    insertion: the joining user is one of the recipients of its own
    announcement. *)
Theorem join_broadcast_includes_self msg u st U :
  no_dangling st →
  users st !! u = Some U →
  (1 ≤ String.length (Join_Room msg) ≤ 128)%nat →
  (1 ≤ String.length (Join_Name msg) ≤ 128)%nat →
  ¬ name_in_use st (Join_Room msg) (Join_Name msg) →
  let notice := Join (mkJoin (Join_Name msg) "") in
  ∃ r st' R' pre bcast,
    handleJoinMessage msg u st = Some (inr r, st')
    ∧ rooms st' !! r = Some R'
    ∧ Room_Users R' !! Join_Name msg = Some u
    ∧ events st' = events st ++ pre ++ bcast ++ [EvUnlock allRoomsMutex]
    ∧ (∀ v m ok, EvSend v (Join m) ok ∉ pre)
    ∧ broadcast_to (users st') (Room_Users R') notice bcast
    ∧ length bcast = size (Room_Users R')
    ∧ EvSend u notice (negb (User_Leavec U)) ∈ bcast.
Proof.
  intros Hnd HU Hl1 Hl2 Hfree notice.
  destruct (join_success msg u st U Hnd HU Hl1 Hl2 Hfree)
    as (r & R & locks & Hrun & Hn & Hcase).
  set (us := <[Join_Name msg := u]> (Room_Users R)).
  set (R' := mkRoom (Room_Name R) us).
  set (users' := <[u := mkUser (Join_Name msg) (User_Leavec U)]> (users st)).
  assert (Hb : broadcast_to users' us notice (sends users' notice (range_order us)))
    by apply sends_range.
  exists r, (join_post st msg u U r R locks), R',
    ([EvLock allRoomsMutex] ++ locks
       ++ [EvSend u (Roster (mkRoster (curUsers R' (Join_Name msg))))
             (delivered users' u)]),
    (sends users' notice (range_order us)).
  split; [done|].
  split; [apply lookup_insert_eq|].
  split; [apply lookup_insert_eq|].
  split; [simpl; by rewrite <- !app_assoc|].
  split.
  { intros v m ok Hin. rewrite !elem_of_app in Hin.
    destruct Hin as [Hin|[Hin|Hin]].
    - apply list_elem_of_singleton in Hin. done.
    - destruct Hcase as [(_ & _ & ->)|(_ & _ & _ & ->)].
      + rewrite elem_of_cons, list_elem_of_singleton in Hin. by destruct Hin.
      + by apply elem_of_nil in Hin.
    - apply list_elem_of_singleton in Hin. done. }
  split; [done|].
  split; [by eapply broadcast_to_length|].
  apply (broadcast_to_elem _ _ _ _ _ Hb).
  exists (Join_Name msg), u. split; [apply lookup_insert_eq|].
  unfold delivered, users'. by rewrite lookup_insert_eq.
Qed.

(** ** The locking order of the handlers *)

Lemma lock_trace_app e1 e2 : lock_trace (e1 ++ e2) = lock_trace e1 ++ lock_trace e2.
Proof.
  induction e1 as [|[m|m|v msg ok] e1 IH]; simpl; by rewrite ?IH.
Qed.

Lemma lock_trace_sends us msg l : lock_trace (sends us msg l) = [].
Proof. induction l as [|kv l IH]; [done|]. simpl. exact IH. Qed.

Lemma lock_order_ok_trace held evs :
  lock_order_ok held evs = lock_order_ok held (lock_trace evs).
Proof.
  revert held. induction evs as [|[[|r]|m|v msg ok] evs IH]; intros held; simpl;
    [done|..].
  - destruct held; [apply IH|done].
  - by rewrite IH.
  - destruct held; [done|]. by rewrite IH.
  - apply IH.
Qed.

Lemma lock_order_registry_room r :
  lock_order_ok [] [EvLock allRoomsMutex; EvLock (RoomMutex r);
                    EvUnlock (RoomMutex r); EvUnlock allRoomsMutex] = true.
Proof. simpl. by rewrite Nat.eqb_refl. Qed.

Lemma lock_order_room r :
  lock_order_ok [] [EvLock (RoomMutex r); EvUnlock (RoomMutex r)] = true.
Proof. simpl. by rewrite Nat.eqb_refl. Qed.

Lemma lock_trace_join_post st msg u U r R locks :
  lock_trace locks = locks →
  ∃ evs, events (join_post st msg u U r R locks) = events st ++ evs
         ∧ lock_trace evs = [EvLock allRoomsMutex] ++ locks ++ [EvUnlock allRoomsMutex].
Proof.
  intros Hl. eexists. split; [reflexivity|].
  rewrite !lock_trace_app, lock_trace_sends, Hl. reflexivity.
Qed.

(** C9: in every operation that takes both the registry mutex and a room's
    mutex (a join into an existing room, a leave) the registry mutex is
    taken before the room's mutex and released after it; a join that
    creates the room takes the registry mutex alone; group and private
    messages take the room's mutex alone; and no operation takes the
    registry mutex while it holds a room's mutex. *)
Theorem registry_mutex_before_room_mutex jmsg gmsg pmsg r u st R U :
  no_dangling st →
  users st !! u = Some U →
  rooms st !! r = Some R →
  (∃ res st' evs,
      handleJoinMessage jmsg u st = Some (res, st')
      ∧ events st' = events st ++ evs
      ∧ lock_order_ok [] evs = true
      ∧ (∀ r0, (1 ≤ String.length (Join_Room jmsg) ≤ 128)%nat →
               (1 ≤ String.length (Join_Name jmsg) ≤ 128)%nat →
               allRooms st !! Join_Room jmsg = Some r0 →
               lock_trace evs = [EvLock allRoomsMutex; EvLock (RoomMutex r0);
                                 EvUnlock (RoomMutex r0); EvUnlock allRoomsMutex])
      ∧ ((1 ≤ String.length (Join_Room jmsg) ≤ 128)%nat →
         (1 ≤ String.length (Join_Name jmsg) ≤ 128)%nat →
         allRooms st !! Join_Room jmsg = None →
         lock_trace evs = [EvLock allRoomsMutex; EvUnlock allRoomsMutex]))
  ∧ (∃ st' evs,
      handleLeaveMessage r u st = Some (tt, st')
      ∧ events st' = events st ++ evs
      ∧ lock_order_ok [] evs = true
      ∧ lock_trace evs = [EvLock allRoomsMutex; EvLock (RoomMutex r);
                          EvUnlock (RoomMutex r); EvUnlock allRoomsMutex])
  ∧ (∃ res st' evs,
      handleGroupMessage gmsg r u st = Some (res, st')
      ∧ events st' = events st ++ evs
      ∧ lock_order_ok [] evs = true
      ∧ lock_trace evs = [EvLock (RoomMutex r); EvUnlock (RoomMutex r)])
  ∧ (∃ res st' evs,
      handlePrivateMessage pmsg r u st = Some (res, st')
      ∧ events st' = events st ++ evs
      ∧ lock_order_ok [] evs = true
      ∧ lock_trace evs = [EvLock (RoomMutex r); EvUnlock (RoomMutex r)]).
Proof.
  intros Hnd HU HR.
  assert (Hm : members_ok st (Room_Users R)) by by apply (proj2 Hnd r).
  split; [|split; [|split]].
  - destruct (handleJoinMessage_outcome jmsg u st U Hnd HU) as (res & st' & Hrun & Hout).
    exists res, st'.
    destruct Hout as [H1|H1 H2|r0 R0 H1 H2 Hr0 HR0 Hin|r0 R0 H1 H2 Hr0 HR0 Hn Hm0|H1 H2 Hr0].
    + exists []. split; [done|]. split; [by rewrite app_nil_r|]. split; [done|].
      apply bad_length_true in H1. by split.
    + exists []. split; [done|]. split; [by rewrite app_nil_r|]. split; [done|].
      apply bad_length_true in H2. by split.
    + eexists. split; [done|]. split; [reflexivity|].
      split; [apply lock_order_registry_room|].
      split; [intros r1 _ _ Hr1; by simplify_eq|]. intros _ _ ?. congruence.
    + destruct (lock_trace_join_post st jmsg u U r0 R0
                  [EvLock (RoomMutex r0); EvUnlock (RoomMutex r0)] eq_refl)
        as (evs & Hev & Htr).
      exists evs. split; [done|]. split; [done|].
      split; [rewrite lock_order_ok_trace, Htr; apply lock_order_registry_room|].
      split; [intros r1 _ _ Hr1; by simplify_eq|]. intros _ _ ?. congruence.
    + destruct (lock_trace_join_post st jmsg u U (fresh (dom (rooms st)))
                  (mkRoom (Join_Room jmsg) ∅) [] eq_refl)
        as (evs & Hev & Htr).
      exists evs. split; [done|]. split; [done|].
      split; [by rewrite lock_order_ok_trace, Htr|].
      split; [intros r1 _ _ Hr1; congruence|done].
  - eexists _, _. split; [by eapply handleLeaveMessage_ok|].
    split; [reflexivity|].
    assert (Htr : ∀ l, lock_trace
              ([EvLock allRoomsMutex; EvLock (RoomMutex r)] ++ sends (users st)
                 (Leave (mkLeave (User_Name U))) l
                 ++ [EvUnlock (RoomMutex r); EvUnlock allRoomsMutex])
            = [EvLock allRoomsMutex; EvLock (RoomMutex r);
               EvUnlock (RoomMutex r); EvUnlock allRoomsMutex]).
    { intros l. by rewrite !lock_trace_app, lock_trace_sends. }
    split; [rewrite lock_order_ok_trace, Htr; apply lock_order_registry_room|].
    apply Htr.
  - eexists _, _, _. split; [by eapply handleGroupMessage_ok|].
    split; [reflexivity|].
    assert (Htr : ∀ m l, lock_trace
              ([EvLock (RoomMutex r)] ++ sends (users st) m l ++ [EvUnlock (RoomMutex r)])
            = [EvLock (RoomMutex r); EvUnlock (RoomMutex r)]).
    { intros m l. by rewrite !lock_trace_app, lock_trace_sends. }
    split; [rewrite lock_order_ok_trace, Htr; apply lock_order_room|].
    apply Htr.
  - destruct (Room_Users R !! Private_To pmsg) as [to|] eqn:Hto.
    + destruct (Hm _ _ Hto) as [T HT].
      eexists _, _, _. split; [by eapply handlePrivateMessage_member|].
      split; [reflexivity|]. split; [|done].
      simpl. by rewrite Nat.eqb_refl.
    + eexists _, _, _. split; [by eapply handlePrivateMessage_absent|].
      split; [reflexivity|]. split; [|done]. apply lock_order_room.
Qed.

(** ** The guards of the receive path *)

(** A rejected message: the error is sent to the session's own user, and
    the loop goes on when that send completes and returns when it does
    not. *)
Lemma recvStep_reject s msg st U err :
  dispatch s msg st = Some (inr (s, Some err), st) →
  users st !! user s = Some U →
  recvStep s (ReadOk msg) st
  = Some (if User_Leavec U then Return s (ErrSendFailed err) else Continue s,
          add_events st [EvSend (user s) (Error (mkError err)) (negb (User_Leavec U))]).
Proof.
  intros Hd HU. unfold recvStep. rewrite run_bind, Hd.
  rewrite run_bind, (sendMessage_ok _ _ _ _ HU). cbn [ret mret M_ret].
  rewrite (delivered_lookup _ _ _ HU). by destruct (User_Leavec U).
Qed.

(** C8: the receive path guards each inbound message by the join state.
    A Join while joined is rejected with the already-joined error, and a
    Leave, Group or Private while not joined with the not-joined error;
    a rejection changes nothing, sends the error to the session's own user
    as an Error message, and the loop continues (the session's [Leavec] is
    open while its receive path runs).  A message of any other type ends
    the receive path with a fatal error. *)
Theorem recv_guards s msg st U :
  users st !! user s = Some U →
  User_Leavec U = false →
  (Type_ msg = TypeJoinMessage → hasJoined s = true →
   recvStep s (ReadOk msg) st
   = Some (Continue s,
           add_events st [EvSend (user s)
                            (Error (mkError "You have already joined a room.")) true]))
  ∧ (Type_ msg = TypeLeaveMessage ∨ Type_ msg = TypeGroupMessage
     ∨ Type_ msg = TypePrivateMessage →
     hasJoined s = false →
     recvStep s (ReadOk msg) st
     = Some (Continue s,
             add_events st [EvSend (user s)
                              (Error (mkError "You need to join a room to do that.")) true]))
  ∧ (Type_ msg ≠ TypeJoinMessage → Type_ msg ≠ TypeLeaveMessage →
     Type_ msg ≠ TypeGroupMessage → Type_ msg ≠ TypePrivateMessage →
     recvStep s (ReadOk msg) st = Some (Return s (ErrUnknownType (Type_ msg)), st)).
Proof.
  intros HU HL. split; [|split].
  - intros Ht Hj.
    rewrite (recvStep_reject s msg st U "You have already joined a room.").
    + by rewrite HL.
    + unfold dispatch. by rewrite Ht, Hj.
    + done.
  - intros Ht Hj.
    rewrite (recvStep_reject s msg st U "You need to join a room to do that.").
    + by rewrite HL.
    + unfold dispatch. by destruct Ht as [->|[->| ->]]; rewrite Hj.
    + done.
  - intros H1 H2 H3 H4. unfold recvStep, dispatch. rewrite run_bind.
    by destruct (Type_ msg).
Qed.

(** ** The room lifecycle is kept by joins and leaves *)

Lemma room_lifecycle_join_post st msg u U r R locks :
  room_lifecycle st →
  Room_Name R = Join_Room msg →
  (allRooms st !! Join_Room msg = Some r ∧ rooms st !! r = Some R)
  ∨ (allRooms st !! Join_Room msg = None ∧ rooms st !! r = None) →
  room_lifecycle (join_post st msg u U r R locks).
Proof.
  intros [Hkey Hiff] Hname Hcase. split.
  - intros name r' Hr'. simpl in *.
    apply lookup_insert_Some in Hr' as [[<- <-]|[Hne Hr']].
    + rewrite lookup_insert_eq. by eexists.
    + destruct (Hkey _ _ Hr') as (R0 & HR0 & Hn0).
      rewrite lookup_insert_ne; [by eexists|].
      intros <-. destruct Hcase as [[Hr HR]|[_ HR]]; [|congruence].
      destruct (Hkey _ _ Hr) as (R1 & HR1 & Hn1). congruence.
  - intros r' R0 HR0. simpl in HR0.
    apply lookup_insert_Some in HR0 as [[<- <-]|[Hne HR0]].
    + split.
      * intros _. simpl. apply insert_non_empty.
      * intros _. exists (Join_Room msg). simpl. apply lookup_insert_eq.
    + rewrite <- (Hiff _ _ HR0). unfold registered. simpl. split.
      * intros [name Hr']. apply lookup_insert_Some in Hr' as [[_ ?]|[_ Hr']]; [done|].
        by exists name.
      * intros [name Hr']. exists name. rewrite lookup_insert_ne; [done|].
        intros <-. destruct Hcase as [[Hr _]|[Hr _]]; congruence.
Qed.

Lemma room_lifecycle_leave_post st r R U :
  room_lifecycle st →
  rooms st !! r = Some R →
  Room_Users R ≠ ∅ →
  room_lifecycle (leave_post st r R U).
Proof.
  intros [Hkey Hiff] HR Hocc.
  assert (Hreg : allRooms st !! Room_Name R = Some r).
  { apply (Hiff _ _ HR) in Hocc as [name Hr].
    destruct (Hkey _ _ Hr) as (R0 & HR0 & <-). congruence. }
  unfold leave_post.
  destruct (decide (delete (User_Name U) (Room_Users R) = ∅)) as [He|Hne].
  - split.
    + intros name r' Hr'. simpl in *.
      apply lookup_delete_Some in Hr' as [Hn Hr'].
      destruct (Hkey _ _ Hr') as (R0 & HR0 & Hn0).
      rewrite lookup_insert_ne; [by eexists|]. intros <-. congruence.
    + intros r' R0 HR0. simpl in HR0.
      apply lookup_insert_Some in HR0 as [[<- <-]|[Hn HR0]].
      * simpl. split; [|done]. intros [name Hr']. simpl in Hr'.
        apply lookup_delete_Some in Hr' as [Hn Hr'].
        destruct (Hkey _ _ Hr') as (R0 & HR0 & Hn0). congruence.
      * rewrite <- (Hiff _ _ HR0). unfold registered. simpl. split.
        -- intros [name Hr']. apply lookup_delete_Some in Hr' as [_ Hr'].
           by exists name.
        -- intros [name Hr']. exists name. apply lookup_delete_Some.
           split; [|done]. intros <-. congruence.
  - split.
    + intros name r' Hr'. simpl in *.
      destruct (Hkey _ _ Hr') as (R0 & HR0 & Hn0).
      destruct (decide (r' = r)) as [->|Hn].
      * rewrite lookup_insert_eq. eexists. split; [done|]. simpl. congruence.
      * rewrite lookup_insert_ne by done. by eexists.
    + intros r' R0 HR0. simpl in HR0.
      apply lookup_insert_Some in HR0 as [[<- <-]|[Hn HR0]].
      * simpl. split; [done|]. intros _. by exists (Room_Name R).
      * by rewrite <- (Hiff _ _ HR0).
Qed.

Lemma room_lifecycle_init : room_lifecycle st_init.
Proof. split; [by intros name r ?|by intros r R ?]. Qed.


(** ** The invariants hold in every reachable state *)

Lemma sys_inv_no_dangling σ : sys_inv σ → no_dangling (sys_state σ).
Proof.
  intros [[Hkey _] _ _ Hmem]. split.
  - intros name r Hr. destruct (Hkey _ _ Hr) as (R & HR & _). by eexists.
  - intros r R HR name v Hv.
    destruct (Hmem _ _ _ _ HR Hv) as (sid & s & V & _ & _ & _ & _ & HV & _).
    by eexists.
Qed.

Lemma sys_inv_ext st1 st2 ss :
  allRooms st1 = allRooms st2 → rooms st1 = rooms st2 → users st1 = users st2 →
  sys_inv (mkSystem st1 ss) → sys_inv (mkSystem st2 ss).
Proof.
  destruct st1, st2. simpl. intros -> -> -> [H1 H2 H3 H4].
  split; [exact H1|exact H2|exact H3|exact H4].
Qed.

Lemma sys_inv_init : sys_inv (mkSystem st_init ∅).
Proof.
  split; simpl.
  - apply room_lifecycle_init.
  - by intros sid s ?.
  - by intros sid1 sid2 s1 s2 ?.
  - by intros r R name v ?.
Qed.

(** The record of a user that no live session owns may change. *)
Lemma inv_free_user st ss u U2 evs :
  sys_inv (mkSystem st ss) →
  (∀ sid s, ss !! sid = Some s → user s ≠ u) →
  sys_inv (mkSystem (mkState (allRooms st) (rooms st)
                             (<[u := U2]> (users st)) evs) ss).
Proof.
  intros [H1 H2 H3 H4] Hfree. simpl in *. split; simpl.
  - exact H1.
  - intros sid s Hs. destruct (H2 _ _ Hs) as (U & HU & HL & Hj).
    exists U. split; [|done]. simpl. rewrite lookup_insert_ne; [done|].
    intros Heq. apply (Hfree _ _ Hs). congruence.
  - exact H3.
  - intros r R name v HR Hv.
    destruct (H4 _ _ _ _ HR Hv) as (sid & s & V & Hs & Hu & Hj & Hr & HV & Hn).
    exists sid, s, V. repeat split; try done.
    simpl. rewrite lookup_insert_ne; [done|]. intros Heq. apply (Hfree _ _ Hs). congruence.
Qed.

(** A user that no live session owns starts a session that has not joined. *)
Lemma inv_add_session st ss sid u U2 :
  sys_inv (mkSystem st ss) →
  ss !! sid = None →
  (∀ sid' s', ss !! sid' = Some s' → user s' ≠ u) →
  users st !! u = Some U2 →
  User_Leavec U2 = false →
  sys_inv (mkSystem st (<[sid := mkSession false None u]> ss)).
Proof.
  intros [H1 H2 H3 H4] Hsid Hfree HU2 HL2. simpl in *. split; simpl.
  - exact H1.
  - intros sid' s' Hs'. apply lookup_insert_Some in Hs' as [[<- <-]|[_ Hs']].
    + exists U2. by repeat split.
    + by apply (H2 sid').
  - intros sid1 sid2 s1 s2 Hs1 Hs2 Heq.
    apply lookup_insert_Some in Hs1 as [[<- <-]|[Hn1 Hs1]];
      apply lookup_insert_Some in Hs2 as [[<- <-]|[Hn2 Hs2]]; try done.
    + simpl in Heq. destruct (Hfree _ _ Hs2). done.
    + simpl in Heq. destruct (Hfree _ _ Hs1). done.
    + by apply (H3 _ _ s1 s2).
  - intros r R name v HR Hv.
    destruct (H4 _ _ _ _ HR Hv) as (sid0 & s0 & V & Hs & Hu & Hj & Hr & HV & Hn).
    exists sid0, s0, V. repeat split; try done.
    rewrite lookup_insert_ne; [done|]. intros <-. congruence.
Qed.

Lemma inv_join st ss sid s U msg r R locks :
  sys_inv (mkSystem st ss) →
  ss !! sid = Some s →
  hasJoined s = false →
  users st !! user s = Some U →
  Room_Users R !! Join_Name msg = None →
  (allRooms st !! Join_Room msg = Some r ∧ rooms st !! r = Some R)
  ∨ (allRooms st !! Join_Room msg = None ∧ rooms st !! r = None
     ∧ R = mkRoom (Join_Room msg) ∅) →
  sys_inv (mkSystem (join_post st msg (user s) U r R locks)
                    (<[sid := mkSession true (Some r) (user s)]> ss)).
Proof.
  intros [H1 H2 H3 H4] Hs Hnj HU Hfree Hcase. simpl in *.
  assert (HL : User_Leavec U = false).
  { destruct (H2 _ _ Hs) as (U0 & HU0 & HL0 & _). congruence. }
  assert (Hother : ∀ sid' s', ss !! sid' = Some s' → sid' ≠ sid → user s' ≠ user s).
  { intros sid' s' Hs' Hne Heq. apply Hne. by apply (H3 _ _ s' s). }
  split; simpl.
  - apply room_lifecycle_join_post; [done| |].
    + destruct Hcase as [[Hr HR]|(_ & _ & ->)]; [|done].
      destruct (proj1 H1 _ _ Hr) as (R0 & HR0 & Hn0). congruence.
    + destruct Hcase as [[Hr HR]|(Hr & HR & _)]; [by left|by right].
  - intros sid' s' Hs'. apply lookup_insert_Some in Hs' as [[<- <-]|[Hne Hs']].
    + eexists. simpl. split; [apply lookup_insert_eq|]. split; [done|].
      eexists r, _. split; [done|]. split; [apply lookup_insert_eq|].
      simpl. apply lookup_insert_eq.
    + destruct (H2 _ _ Hs') as (U' & HU' & HL' & Hj').
      exists U'. simpl. split; [|split; [done|]].
      { rewrite lookup_insert_ne; [done|]. intros Heq. by apply (Hother _ _ Hs'). }
      destruct (hasJoined s'); [|done].
      destruct Hj' as (r' & R' & Hr' & HR' & Hmem').
      destruct (decide (r' = r)) as [->|Hner].
      * eexists r, _. split; [done|]. split; [apply lookup_insert_eq|].
        simpl. destruct Hcase as [[_ HR]|(_ & HR & _)]; [|congruence].
        rewrite HR in HR'. injection HR' as <-.
        rewrite lookup_insert_ne; [done|]. intros Heq.
        rewrite Heq in Hfree. congruence.
      * exists r', R'. split; [done|]. split; [|done].
        by rewrite lookup_insert_ne.
  - intros sid1 sid2 s1 s2 Hs1 Hs2 Heq.
    apply lookup_insert_Some in Hs1 as [[<- <-]|[Hn1 Hs1]];
      apply lookup_insert_Some in Hs2 as [[<- <-]|[Hn2 Hs2]]; try done.
    + simpl in Heq. by apply (H3 _ _ s s2).
    + simpl in Heq. by apply (H3 _ _ s1 s).
    + by apply (H3 _ _ s1 s2).
  - assert (Hold : ∀ r0 R0 name v, rooms st !! r0 = Some R0 →
              Room_Users R0 !! name = Some v →
              member_ok (join_post st msg (user s) U r R locks)
                (<[sid := mkSession true (Some r) (user s)]> ss) r0 name v).
    { intros r0 R0 name v HR0 Hv.
      destruct (H4 _ _ _ _ HR0 Hv) as (sid0 & s0 & V & Hs0 & Hu & Hj & Hr0 & HV & Hn).
      assert (Hne : sid0 ≠ sid) by (intros ->; congruence).
      exists sid0, s0, V. split; [by rewrite lookup_insert_ne|].
      repeat split; try done. simpl.
      rewrite lookup_insert_ne; [done|]. intros Heq.
      apply (Hother _ _ Hs0 Hne). congruence. }
    intros r0 R0 name v HR0 Hv.
    apply lookup_insert_Some in HR0 as [[<- <-]|[Hner HR0]].
    + simpl in Hv. apply lookup_insert_Some in Hv as [[<- <-]|[Hnn Hv]].
      * eexists sid, _, _. split; [apply lookup_insert_eq|]. simpl.
        repeat split; try done; [apply lookup_insert_eq|].
        reflexivity.
      * destruct Hcase as [[_ HR]|(_ & _ & ->)]; [by eapply Hold|done].
    + by eapply Hold.
Qed.

Lemma inv_leave st ss sid s U r R :
  sys_inv (mkSystem st ss) →
  ss !! sid = Some s →
  hasJoined s = true →
  room s = Some r →
  rooms st !! r = Some R →
  users st !! user s = Some U →
  Room_Users R !! User_Name U = Some (user s) →
  sys_inv (mkSystem (leave_post st r R U) (delete sid ss)).
Proof.
  intros [H1 H2 H3 H4] Hs Hj Hr HR HU Hmem. simpl in *.
  assert (Hrooms : rooms (leave_post st r R U)
            = <[r := mkRoom (Room_Name R) (delete (User_Name U) (Room_Users R))]> (rooms st))
    by done.
  assert (Husers : users (leave_post st r R U) = users st) by done.
  split; simpl.
  - apply room_lifecycle_leave_post; [done..|].
    intros He. by rewrite He in Hmem.
  - intros sid' s' Hs'. apply lookup_delete_Some in Hs' as [Hne Hs'].
    destruct (H2 _ _ Hs') as (U' & HU' & HL' & Hj').
    exists U'. rewrite Husers. split; [done|]. split; [done|].
    destruct (hasJoined s'); [|done].
    destruct Hj' as (r' & R' & Hr' & HR' & Hmem').
    rewrite Hrooms. destruct (decide (r' = r)) as [->|Hner].
    + eexists r, _. split; [done|]. split; [apply lookup_insert_eq|].
      simpl. rewrite HR in HR'. injection HR' as <-.
      rewrite lookup_delete_ne; [done|]. intros Heq. rewrite Heq in Hmem.
      apply Hne. apply (H3 _ _ s s'); [done..|congruence].
    + exists r', R'. split; [done|]. split; [|done].
      by rewrite lookup_insert_ne.
  - intros sid1 sid2 s1 s2 Hs1 Hs2.
    apply lookup_delete_Some in Hs1 as [_ Hs1].
    apply lookup_delete_Some in Hs2 as [_ Hs2]. by apply H3.
  - intros r0 R0 name v HR0 Hv. rewrite ?Hrooms in HR0.
    unfold member_ok. rewrite ?Husers.
    apply lookup_insert_Some in HR0 as [[<- <-]|[Hner HR0]].
    + simpl in Hv. apply lookup_delete_Some in Hv as [Hnn Hv].
      destruct (H4 _ _ _ _ HR Hv) as (sid0 & s0 & V & Hs0 & Hu & Hj0 & Hr0 & HV & Hn).
      exists sid0, s0, V. split; [|done].
      apply lookup_delete_Some. split; [|done]. intros <-.
      apply Hnn. congruence.
    + destruct (H4 _ _ _ _ HR0 Hv) as (sid0 & s0 & V & Hs0 & Hu & Hj0 & Hr0 & HV & Hn).
      exists sid0, s0, V. split; [|done].
      apply lookup_delete_Some. split; [|done]. intros <-. congruence.
Qed.

Lemma inv_same st st' ss sid s :
  sys_inv (mkSystem st ss) →
  ss !! sid = Some s →
  allRooms st = allRooms st' → rooms st = rooms st' → users st = users st' →
  sys_inv (mkSystem st' (<[sid := s]> ss)).
Proof.
  intros Hinv Hs H1 H2 H3. rewrite insert_id by done. by eapply sys_inv_ext.
Qed.

Lemma session_not_joined st s :
  session_ok st s → hasJoined s = false → s = mkSession false None (user s).
Proof.
  intros (U & _ & _ & Hj) Hnj. rewrite Hnj in Hj. destruct s; simpl in *.
  congruence.
Qed.

(** The [switch] keeps the invariants and does not panic. *)
Lemma dispatch_inv st ss sid s msg :
  sys_inv (mkSystem st ss) →
  ss !! sid = Some s →
  ∃ d st1,
    dispatch s msg st = Some (d, st1)
    ∧ match d with
      | inl _ => st1 = st
      | inr (s', _) =>
          user s' = user s ∧ sys_inv (mkSystem st1 (<[sid := s']> ss))
      end.
Proof.
  intros Hinv Hs.
  pose proof (sys_inv_no_dangling _ Hinv) as Hnd. simpl in Hnd.
  destruct (inv_sessions _ Hinv _ _ Hs) as (U & HU & HL & Hj). simpl in HU, Hj.
  assert (Hrej : ∀ err, ∃ d st1,
            @ret (Fatal + Session * option error) (inr (s, Some err)) st = Some (d, st1)
            ∧ match d with
              | inl _ => st1 = st
              | inr (s', _) =>
                  user s' = user s ∧ sys_inv (mkSystem st1 (<[sid := s']> ss))
              end).
  { intros err. eexists _, _. split; [reflexivity|]. split; [done|].
    by eapply inv_same. }
  unfold dispatch. destruct (Type_ msg) eqn:Ht;
    try (eexists _, _; split; [reflexivity|done]).
  - (* Join *)
    destruct (hasJoined s) eqn:Hjoined; [apply Hrej|].
    destruct (unmarshalJoin (Raw msg)) as [err|decoded].
    { eexists _, _. split; [reflexivity|done]. }
    destruct (handleJoinMessage_outcome decoded (user s) st U Hnd HU)
      as (res & st' & Hrun & Hout).
    rewrite run_bind, Hrun.
    assert (Hs0 : s = mkSession false None (user s)).
    { apply (session_not_joined st); [|done]. by apply (inv_sessions _ Hinv sid). }
    destruct Hout as [H1|H1 H2|r R H1 H2 Hr HR Hin|r R H1 H2 Hr HR Hn Hm|H1 H2 Hr];
      cbn [ret mret M_ret].
    + eexists _, _. split; [reflexivity|]. split; [done|].
      rewrite <- Hs0. by eapply inv_same.
    + eexists _, _. split; [reflexivity|]. split; [done|].
      rewrite <- Hs0. by eapply inv_same.
    + eexists _, _. split; [reflexivity|]. split; [done|].
      rewrite <- Hs0. by eapply inv_same.
    + eexists _, _. split; [reflexivity|]. split; [done|].
      apply inv_join; [done..|by left].
    + eexists _, _. split; [reflexivity|]. split; [done|].
      apply inv_join; [done..|]. right. split; [done|]. split; [|done].
      apply not_elem_of_dom, is_fresh.
  - (* Leave *)
    destruct (hasJoined s) eqn:Hjoined; [|apply Hrej]. cbn [negb].
    destruct Hj as (r & R & Hr & HR & Hmem).
    assert (Hm : members_ok st (Room_Users R)) by by apply (proj2 Hnd r).
    rewrite run_bind, Hr. cbn [nonnil ret mret M_ret].
    rewrite run_bind, (handleLeaveMessage_ok _ _ _ _ _ HR HU Hm).
    rewrite run_bind, (setUserName_ok _ _ _ U) by done.
    eexists _, _. split; [reflexivity|]. split; [done|].
    pose proof (inv_leave _ _ _ _ _ _ _ Hinv Hs Hjoined Hr HR HU Hmem) as Hinv1.
    assert (Hfree : ∀ sid' s', delete sid ss !! sid' = Some s' → user s' ≠ user s).
    { intros sid' s' Hs' Heq. apply lookup_delete_Some in Hs' as [Hne Hs'].
      apply Hne. by apply (inv_users _ Hinv _ _ s s'). }
    rewrite <- (insert_delete_eq ss).
    apply (inv_add_session _ _ _ _ (mkUser "" (User_Leavec U))).
    + by apply inv_free_user.
    + apply lookup_delete_eq.
    + done.
    + apply lookup_insert_eq.
    + done.
  - (* Group *)
    destruct (hasJoined s) eqn:Hjoined; [|apply Hrej]. cbn [negb].
    destruct (unmarshalGroup (Raw msg)) as [err|decoded].
    { eexists _, _. split; [reflexivity|done]. }
    destruct Hj as (r & R & Hr & HR & Hmem).
    assert (Hm : members_ok st (Room_Users R)) by by apply (proj2 Hnd r).
    rewrite run_bind, Hr. cbn [nonnil ret mret M_ret].
    rewrite run_bind, (handleGroupMessage_ok _ _ _ _ _ _ HR HU Hm).
    eexists _, _. split; [reflexivity|]. split; [done|]. by eapply inv_same.
  - (* Private *)
    destruct (hasJoined s) eqn:Hjoined; [|apply Hrej]. cbn [negb].
    destruct (unmarshalPrivate (Raw msg)) as [err|decoded].
    { eexists _, _. split; [reflexivity|done]. }
    destruct Hj as (r & R & Hr & HR & Hmem).
    assert (Hm : members_ok st (Room_Users R)) by by apply (proj2 Hnd r).
    rewrite run_bind, Hr. cbn [nonnil ret mret M_ret].
    destruct (Room_Users R !! Private_To decoded) as [to|] eqn:Hto.
    + destruct (Hm _ _ Hto) as [T HT].
      rewrite run_bind, (handlePrivateMessage_member _ _ _ _ _ _ _ _ HR HU Hto HT).
      eexists _, _. split; [reflexivity|]. split; [done|]. by eapply inv_same.
    + rewrite run_bind, (handlePrivateMessage_absent _ _ _ _ _ HR Hto).
      eexists _, _. split; [reflexivity|]. split; [done|]. by eapply inv_same.
Qed.

(** One iteration of the receive loop keeps the invariants and does not
    panic; when it returns, the session's variables are as before. *)
Lemma recvStep_inv st ss sid s rr :
  sys_inv (mkSystem st ss) →
  ss !! sid = Some s →
  ∃ res st',
    recvStep s rr st = Some (res, st')
    ∧ match res with
      | Continue s' => sys_inv (mkSystem st' (<[sid := s']> ss))
      | Return s' _ => s' = s ∧ sys_inv (mkSystem st' ss)
      end.
Proof.
  intros Hinv Hs. destruct rr as [err|msg].
  { eexists _, _. split; [reflexivity|]. by split. }
  destruct (dispatch_inv st ss sid s msg Hinv Hs) as (d & st1 & Hd & Hpost).
  unfold recvStep. rewrite run_bind, Hd.
  destruct d as [fatal|[s' [err|]]].
  - subst st1. eexists _, _. split; [reflexivity|]. by split.
  - destruct Hpost as [Hu Hinv1].
    destruct (inv_sessions _ Hinv1 sid s') as (U & HU & HL & _);
      [apply lookup_insert_eq|]. simpl in HU.
    rewrite run_bind, (sendMessage_ok _ _ _ _ HU). rewrite HL.
    eexists _, _. split; [reflexivity|]. simpl.
    eapply sys_inv_ext; [..|exact Hinv1]; done.
  - destruct Hpost as [Hu Hinv1].
    eexists _, _. split; [reflexivity|]. done.
Qed.

Lemma connect_inv st ss :
  sys_inv (mkSystem st ss) →
  ∃ s st', connect st = Some (s, st')
           ∧ sys_inv (mkSystem st' (<[fresh (dom ss) := s]> ss)).
Proof.
  intros Hinv. eexists _, _. split; [reflexivity|].
  assert (Hfree : ∀ sid s, ss !! sid = Some s → user s ≠ fresh (dom (users st))).
  { intros sid s Hs Heq.
    destruct (inv_sessions _ Hinv _ _ Hs) as (U & HU & _). simpl in HU.
    apply (is_fresh (dom (users st))). rewrite <- Heq. apply elem_of_dom. by eexists. }
  apply (inv_add_session _ _ _ _ (mkUser "" false)).
  - by apply inv_free_user.
  - apply not_elem_of_dom, is_fresh.
  - done.
  - apply lookup_insert_eq.
  - done.
Qed.

Lemma teardown_inv st ss sid s :
  sys_inv (mkSystem st ss) →
  ss !! sid = Some s →
  ∃ st', teardown s st = Some (tt, st')
         ∧ sys_inv (mkSystem st' (delete sid ss)).
Proof.
  intros Hinv Hs.
  pose proof (sys_inv_no_dangling _ Hinv) as Hnd. simpl in Hnd.
  destruct (inv_sessions _ Hinv _ _ Hs) as (U & HU & HL & Hj). simpl in HU, Hj.
  assert (Hfree : ∀ sid' s', delete sid ss !! sid' = Some s' → user s' ≠ user s).
  { intros sid' s' Hs' Heq. apply lookup_delete_Some in Hs' as [Hne Hs'].
    apply Hne. by apply (inv_users _ Hinv _ _ s s'). }
  unfold teardown. rewrite run_bind.
  unfold closeLeavec. rewrite run_bind, (derefUser_ok _ _ _ HU).
  cbn [modify].
  destruct (hasJoined s) eqn:Hjoined.
  - destruct Hj as (r & R & Hr & HR & Hmem).
    assert (Hm : members_ok st (Room_Users R)) by by apply (proj2 Hnd r).
    rewrite run_bind, Hr. cbn [nonnil ret mret M_ret].
    erewrite handleLeaveMessage_ok; [|exact HR|apply lookup_insert_eq|].
    2:{ intros name v Hv. simpl. destruct (Hm _ _ Hv) as [V HV].
        destruct (decide (v = user s)) as [->|Hne].
        - rewrite lookup_insert_eq. by eexists.
        - rewrite lookup_insert_ne by done. by eexists. }
    eexists. split; [reflexivity|].
    pose proof (inv_leave _ _ _ _ _ _ _ Hinv Hs Hjoined Hr HR HU Hmem) as Hinv1.
    apply (inv_free_user _ _ (user s) (mkUser (User_Name U) true) []) in Hinv1;
      [|done].
    eapply sys_inv_ext; [..|exact Hinv1]; done.
  - eexists. split; [reflexivity|].
    assert (Hinv1 : sys_inv (mkSystem st (delete sid ss))).
    { destruct Hinv as [H1 H2 H3 H4]. simpl in *. split; simpl.
      - done.
      - intros sid' s' Hs'. apply lookup_delete_Some in Hs' as [_ Hs'].
        by apply (H2 sid').
      - intros sid1 sid2 s1 s2 Hs1 Hs2.
        apply lookup_delete_Some in Hs1 as [_ Hs1].
        apply lookup_delete_Some in Hs2 as [_ Hs2]. by apply H3.
      - intros r R name v HR Hv.
        destruct (H4 _ _ _ _ HR Hv) as (sid0 & s0 & V & Hs0 & Hu & Hj0 & Hr0 & HV & Hn).
        exists sid0, s0, V. split; [|done].
        apply lookup_delete_Some. split; [|done]. intros <-. congruence. }
    by apply inv_free_user.
Qed.

(** Every reachable state of the system satisfies the invariants. *)
Theorem reachable_inv σ : reachable σ → sys_inv σ.
Proof.
  induction 1 as [|σ σ' Hreach IH Hstep]; [apply sys_inv_init|].
  destruct Hstep as [st ss s st' Hc|st ss sid s rr s' st' Hs Hrun
                     |st ss sid s rr s' err st' st'' Hs Hrun Htd].
  - destruct (connect_inv st ss IH) as (s0 & st0 & Hc0 & Hinv). congruence.
  - destruct (recvStep_inv st ss sid s rr IH Hs) as (res & st0 & Hrun0 & Hinv).
    rewrite Hrun in Hrun0. by injection Hrun0 as <- <-.
  - destruct (recvStep_inv st ss sid s rr IH Hs) as (res & st0 & Hrun0 & Hinv).
    rewrite Hrun in Hrun0. injection Hrun0 as <- <-. destruct Hinv as [-> Hinv].
    destruct (teardown_inv st' ss sid s Hinv Hs) as (st1 & Htd1 & Hinv1).
    congruence.
Qed.

(** X18: in every reachable state a room object is in the registry if and
    only if it has a member, and the registry maps a name to a room object
    of that name. *)
Corollary reachable_room_lifecycle σ :
  reachable σ → room_lifecycle (sys_state σ).
Proof. intros H. by apply inv_lifecycle, reachable_inv. Qed.

(** In every reachable state a live session's [Leavec] is open, so a
    send to its own user completes. *)
Corollary reachable_Leavec_open σ sid s :
  reachable σ →
  sessions σ !! sid = Some s →
  ∃ U, users (sys_state σ) !! user s = Some U ∧ User_Leavec U = false.
Proof.
  intros H Hs. destruct (inv_sessions _ (reachable_inv _ H) _ _ Hs) as (U & HU & HL & _).
  by exists U.
Qed.

(** In every reachable state a member of a room is stored under its own
    name, so a user is a member under one name at most. *)
Corollary reachable_member_name σ r R name v :
  reachable σ →
  rooms (sys_state σ) !! r = Some R →
  Room_Users R !! name = Some v →
  ∃ V, users (sys_state σ) !! v = Some V ∧ User_Name V = name.
Proof.
  intros H HR Hv.
  destruct (inv_members _ (reachable_inv _ H) _ _ _ _ HR Hv)
    as (sid & s & V & _ & _ & _ & _ & HV & Hn).
  by exists V.
Qed.

(** In every reachable state the receive path of a live session runs one
    more iteration without a nil dereference. *)
Corollary reachable_no_panic σ sid s rr :
  reachable σ →
  sessions σ !! sid = Some s →
  ∃ res st', recvStep s rr (sys_state σ) = Some (res, st').
Proof.
  intros H Hs. destruct σ as [st ss].
  destruct (recvStep_inv st ss sid s rr (reachable_inv _ H) Hs) as (res & st' & Hrun & _).
  by exists res, st'.
Qed.

(** ** Broadcasts reach every member *)

(** X1: [broadcastMessage] makes one send attempt to each member of the
    map, whatever the outcome of the other attempts: a member whose
    [Leavec] is closed does not keep the message from the members after
    it.  No one else is sent anything, and nothing but the log changes. *)
Theorem broadcast_reaches_every_member us msg st :
  members_ok st us →
  ∃ bcast,
    broadcastMessage us msg st = Some (tt, add_events st bcast)
    ∧ length bcast = size us
    ∧ (∀ name v V, us !! name = Some v → users st !! v = Some V →
         EvSend v msg (negb (User_Leavec V)) ∈ bcast)
    ∧ (∀ v m ok, EvSend v m ok ∈ bcast →
         m = msg ∧ ok = delivered (users st) v ∧ ∃ name, us !! name = Some v)
    ∧ (∀ e, e ∈ bcast → ∃ v ok, e = EvSend v msg ok).
Proof.
  intros Hm. exists (sends (users st) msg (range_order us)).
  pose proof (sends_range (users st) us msg) as Hb.
  split; [by apply broadcastMessage_ok|].
  split; [by eapply broadcast_to_length|].
  split; [|split].
  - intros name v V Hv HV. apply (broadcast_to_elem _ _ _ _ _ Hb).
    exists name, v. split; [done|]. by rewrite (delivered_lookup _ _ _ HV).
  - intros v m ok Hin. apply (broadcast_to_elem _ _ _ _ _ Hb) in Hin
      as (name & v' & Hv' & [= -> -> ->]).
    split; [done|]. split; [done|]. by exists name.
  - intros e Hin. apply (broadcast_to_elem _ _ _ _ _ Hb) in Hin
      as (name & v & _ & ->). by eexists _, _.
Qed.

(** ** More on [handleJoinMessage] *)

(** X2: which error [handleJoinMessage] returns.  The room name is checked
    first, then the nickname, then whether the nickname is taken: the
    room-name error is returned exactly when the room name's length is
    outside [1,128], the nickname error exactly when the room name is
    valid and the nickname's length is not, and "Nickname in use." exactly
    when both are valid and the name is taken in the registered room.
    These are the only errors, and a length error is returned before any
    mutex is taken: the state, log included, is as before. *)
Theorem join_error_messages msg u st U :
  no_dangling st →
  users st !! u = Some U →
  let room_ok := (1 ≤ String.length (Join_Room msg) ≤ 128)%nat in
  let name_ok := (1 ≤ String.length (Join_Name msg) ≤ 128)%nat in
  ∃ res st',
    handleJoinMessage msg u st = Some (res, st')
    ∧ (res = inl "Room name must be between 1 and 128 characters." ↔ ¬ room_ok)
    ∧ (res = inl "Nickname must be between 1 and 128 characters."
       ↔ room_ok ∧ ¬ name_ok)
    ∧ (res = inl "Nickname in use."
       ↔ room_ok ∧ name_ok ∧ name_in_use st (Join_Room msg) (Join_Name msg))
    ∧ (¬ room_ok ∨ ¬ name_ok → st' = st)
    ∧ (∀ err, res = inl err →
         err = "Room name must be between 1 and 128 characters."
         ∨ err = "Nickname must be between 1 and 128 characters."
         ∨ err = "Nickname in use.").
Proof.
  intros Hnd HU room_ok name_ok.
  destruct (handleJoinMessage_outcome msg u st U Hnd HU) as (res & st' & Hrun & Hout).
  exists res, st'. split; [done|].
  destruct Hout as [H1|H1 H2|r R H1 H2 Hr HR Hin|r R H1 H2 Hr HR Hn Hm|H1 H2 Hr].
  - apply bad_length_true in H1. fold room_ok in H1.
    split; [done|]. split; [split; [discriminate|tauto]|].
    split; [split; [discriminate|tauto]|]. split; [done|].
    intros err [= <-]. by left.
  - apply bad_length_false in H1. apply bad_length_true in H2.
    fold room_ok in H1. fold name_ok in H2.
    split; [split; [discriminate|tauto]|]. split; [done|].
    split; [split; [discriminate|tauto]|]. split; [done|].
    intros err [= <-]. right. by left.
  - apply bad_length_false in H1, H2. fold room_ok in H1. fold name_ok in H2.
    split; [split; [discriminate|tauto]|].
    split; [split; [discriminate|tauto]|].
    split; [split; [intros _|done]|].
    { split; [done|]. split; [done|]. by exists r, R. }
    split; [tauto|]. intros err [= <-]. right. by right.
  - apply bad_length_false in H1, H2. fold room_ok in H1. fold name_ok in H2.
    split; [split; [discriminate|tauto]|].
    split; [split; [discriminate|tauto]|].
    split; [|split; [tauto|discriminate]].
    split; [discriminate|]. intros (_ & _ & r' & R' & Hr' & HR' & [v Hv]).
    congruence.
  - apply bad_length_false in H1, H2. fold room_ok in H1. fold name_ok in H2.
    split; [split; [discriminate|tauto]|].
    split; [split; [discriminate|tauto]|].
    split; [|split; [tauto|discriminate]].
    split; [discriminate|]. intros (_ & _ & r' & R' & Hr' & _). congruence.
Qed.

(** The state after a successful join, read at the room joined. *)
Lemma join_post_room st msg u U r R locks :
  rooms (join_post st msg u U r R locks) !! r
  = Some (mkRoom (Room_Name R) (<[Join_Name msg := u]> (Room_Users R))).
Proof. apply lookup_insert_eq. Qed.

Lemma join_post_user st msg u U r R locks :
  users (join_post st msg u U r R locks) !! u
  = Some (mkUser (Join_Name msg) (User_Leavec U)).
Proof. apply lookup_insert_eq. Qed.

Lemma join_post_members_ok st msg u U r R locks :
  members_ok st (Room_Users R) →
  members_ok (join_post st msg u U r R locks)
    (<[Join_Name msg := u]> (Room_Users R)).
Proof. intros Hm. by apply members_ok_join. Qed.

(** The room a join goes into has allocated members. *)
Lemma join_success_members_ok msg st r R :
  no_dangling st →
  (allRooms st !! Join_Room msg = Some r ∧ rooms st !! r = Some R)
  ∨ R = mkRoom (Join_Room msg) ∅ →
  members_ok st (Room_Users R).
Proof.
  intros Hnd [[_ HR]| ->].
  - by apply (proj2 Hnd r).
  - intros name v Hv. simpl in Hv. by rewrite lookup_empty in Hv.
Qed.

(** X3: a successful join touches one room and one user.  The room joined
    gains the entry for the nickname and keeps every other entry and its
    name; every other room object is as before; the registry changes at
    the room's name only; the joining user's [Name] becomes the nickname
    and its [Leavec] is untouched; every other user is as before. *)
Theorem join_changes_one_room msg u st U :
  no_dangling st →
  users st !! u = Some U →
  (1 ≤ String.length (Join_Room msg) ≤ 128)%nat →
  (1 ≤ String.length (Join_Name msg) ≤ 128)%nat →
  ¬ name_in_use st (Join_Room msg) (Join_Name msg) →
  ∃ r st' R',
    handleJoinMessage msg u st = Some (inr r, st')
    ∧ rooms st' !! r = Some R'
    ∧ Room_Users R' !! Join_Name msg = Some u
    ∧ (∀ n, n ≠ Join_Name msg →
         Room_Users R' !! n = (rooms st !! r) ≫= (λ R, Room_Users R !! n))
    ∧ (∀ R, rooms st !! r = Some R → Room_Name R' = Room_Name R)
    ∧ (rooms st !! r = None → Room_Name R' = Join_Room msg)
    ∧ (∀ r', r' ≠ r → rooms st' !! r' = rooms st !! r')
    ∧ allRooms st' !! Join_Room msg = Some r
    ∧ (∀ name, name ≠ Join_Room msg → allRooms st' !! name = allRooms st !! name)
    ∧ users st' !! u = Some (mkUser (Join_Name msg) (User_Leavec U))
    ∧ (∀ v, v ≠ u → users st' !! v = users st !! v).
Proof.
  intros Hnd HU Hl1 Hl2 Hfree.
  destruct (join_success msg u st U Hnd HU Hl1 Hl2 Hfree)
    as (r & R & locks & Hrun & Hn & Hcase).
  exists r, (join_post st msg u U r R locks),
    (mkRoom (Room_Name R) (<[Join_Name msg := u]> (Room_Users R))).
  split; [done|]. split; [apply join_post_room|].
  split; [apply lookup_insert_eq|].
  split.
  { intros n Hne. simpl. rewrite lookup_insert_ne by done.
    destruct Hcase as [(_ & -> & _)|(_ & -> & -> & _)]; [done|].
    simpl. apply lookup_empty. }
  split.
  { intros R0 HR0. simpl.
    destruct Hcase as [(_ & HR & _)|(_ & HR & _)]; congruence. }
  split.
  { intros HR0. destruct Hcase as [(_ & HR & _)|(_ & _ & -> & _)]; [congruence|done]. }
  split; [by intros r' Hne; simpl; rewrite lookup_insert_ne|].
  split; [apply lookup_insert_eq|].
  split; [by intros name Hne; simpl; rewrite lookup_insert_ne|].
  split; [apply lookup_insert_eq|].
  by intros v Hne; simpl; rewrite lookup_insert_ne.
Qed.

(** X4: a join followed by the same user's leave of the room joined puts
    the registry and every room object back as they were; when the join
    created the room, the room object stays behind, empty and out of the
    registry.  The user's [Name] is still the nickname: it is the receive
    path, not [handleLeaveMessage], that clears it. *)
Theorem join_then_leave_restores msg u st U :
  no_dangling st →
  room_lifecycle st →
  users st !! u = Some U →
  (1 ≤ String.length (Join_Room msg) ≤ 128)%nat →
  (1 ≤ String.length (Join_Name msg) ≤ 128)%nat →
  ¬ name_in_use st (Join_Room msg) (Join_Name msg) →
  ∃ r st1 st2,
    handleJoinMessage msg u st = Some (inr r, st1)
    ∧ handleLeaveMessage r u st1 = Some (tt, st2)
    ∧ allRooms st2 = allRooms st
    ∧ (is_Some (rooms st !! r) → rooms st2 = rooms st)
    ∧ (rooms st !! r = None →
       rooms st2 = <[r := mkRoom (Join_Room msg) ∅]> (rooms st)
       ∧ ¬ registered st2 r)
    ∧ users st2 = <[u := mkUser (Join_Name msg) (User_Leavec U)]> (users st)
    ∧ room_lifecycle st2.
Proof.
  intros Hnd Hinv HU Hl1 Hl2 Hfree.
  destruct (join_success msg u st U Hnd HU Hl1 Hl2 Hfree)
    as (r & R & locks & Hrun & Hn & Hcase).
  set (st1 := join_post st msg u U r R locks).
  set (R1 := mkRoom (Room_Name R) (<[Join_Name msg := u]> (Room_Users R))).
  set (U1 := mkUser (Join_Name msg) (User_Leavec U)).
  assert (Hm : members_ok st (Room_Users R)).
  { apply (join_success_members_ok msg st r R Hnd).
    destruct Hcase as [(Hr & HR & _)|(_ & _ & -> & _)]; [by left|by right]. }
  assert (Hname : Room_Name R = Join_Room msg).
  { destruct Hcase as [(Hr & HR & _)|(_ & _ & -> & _)]; [|done].
    destruct (proj1 Hinv _ _ Hr) as (R0 & HR0 & Hn0). congruence. }
  assert (Hinv1 : room_lifecycle st1).
  { apply room_lifecycle_join_post; [done..|].
    destruct Hcase as [(Hr & HR & _)|(Hr & HR & _)]; [by left|by right]. }
  assert (Hrun2 : handleLeaveMessage r u st1 = Some (tt, leave_post st1 r R1 U1)).
  { apply handleLeaveMessage_ok;
      [apply join_post_room|apply join_post_user|by apply join_post_members_ok]. }
  assert (Hinv2 : room_lifecycle (leave_post st1 r R1 U1)).
  { apply room_lifecycle_leave_post; [done|apply join_post_room|].
    apply insert_non_empty. }
  assert (Hdel : delete (User_Name U1) (Room_Users R1) = Room_Users R)
    by by apply delete_insert_id.
  exists r, st1, (leave_post st1 r R1 U1).
  split; [done|]. split; [done|].
  unfold leave_post in *. rewrite Hdel in *. cbn [allRooms rooms users] in *.
  cbn [Room_Name R1] in *.
  destruct Hcase as [(Hr & HR & _)|(Hr & HR & -> & _)].
  - assert (Hocc : Room_Users R ≠ ∅).
    { apply (proj2 Hinv _ _ HR). by exists (Join_Room msg). }
    rewrite decide_False in * by done.
    split; [simpl; by apply insert_id|].
    split.
    { intros _. simpl. rewrite insert_insert_eq. apply insert_id.
      rewrite HR. by destruct R. }
    split; [intros ?; congruence|]. split; [done|exact Hinv2].
  - cbn [Room_Users Room_Name] in *.
    rewrite decide_True in * by done.
    split; [simpl; by apply delete_insert_id|].
    split; [intros [? ?]; congruence|].
    split; [|split; [done|exact Hinv2]].
    intros _. split; [simpl; by rewrite insert_insert_eq|].
    intros Hreg. apply (proj2 Hinv2 r (mkRoom (Join_Room msg) ∅)) in Hreg; [done|].
    simpl. apply lookup_insert_eq.
Qed.

(** X5: nicknames are unique within a room.  After a successful join, a
    join of the same room under the same nickname, by any user (the one
    that has just joined included), is refused with "Nickname in use." and
    changes neither the registry nor any room or user. *)
Theorem join_same_name_rejected msg u st U v :
  no_dangling st →
  users st !! u = Some U →
  (1 ≤ String.length (Join_Room msg) ≤ 128)%nat →
  (1 ≤ String.length (Join_Name msg) ≤ 128)%nat →
  ¬ name_in_use st (Join_Room msg) (Join_Name msg) →
  ∃ r st1 st2,
    handleJoinMessage msg u st = Some (inr r, st1)
    ∧ handleJoinMessage msg v st1 = Some (inl "Nickname in use.", st2)
    ∧ allRooms st2 = allRooms st1 ∧ rooms st2 = rooms st1 ∧ users st2 = users st1.
Proof.
  intros Hnd HU Hl1 Hl2 Hfree.
  destruct (join_success msg u st U Hnd HU Hl1 Hl2 Hfree)
    as (r & R & locks & Hrun & Hn & Hcase).
  exists r, (join_post st msg u U r R locks),
    (add_events (join_post st msg u U r R locks)
       [EvLock allRoomsMutex; EvLock (RoomMutex r);
        EvUnlock (RoomMutex r); EvUnlock allRoomsMutex]).
  split; [exact Hrun|].
  split; [|done].
  eapply handleJoinMessage_in_use.
  - by apply bad_length_false.
  - by apply bad_length_false.
  - simpl. apply lookup_insert_eq.
  - apply join_post_room.
  - simpl. rewrite lookup_insert_eq. by eexists.
Qed.

(** ** More on [handleLeaveMessage] *)

(** X6: a room is not revived.  When the last member leaves, the room's
    name leaves the registry; a later join under that name, by any user,
    gets a new room object whose only member is the joiner and whose
    roster is empty, registered under the name in place of the old
    object, which stays empty. *)
Theorem rejoin_after_last_leave r u st R U msg v V :
  rooms st !! r = Some R →
  users st !! u = Some U →
  members_ok st (Room_Users R) →
  delete (User_Name U) (Room_Users R) = ∅ →
  users st !! v = Some V →
  Join_Room msg = Room_Name R →
  (1 ≤ String.length (Join_Room msg) ≤ 128)%nat →
  (1 ≤ String.length (Join_Name msg) ≤ 128)%nat →
  ∃ st1 r' st2,
    handleLeaveMessage r u st = Some (tt, st1)
    ∧ allRooms st1 !! Room_Name R = None
    ∧ handleJoinMessage msg v st1 = Some (inr r', st2)
    ∧ r' ≠ r
    ∧ rooms st !! r' = None
    ∧ allRooms st2 !! Room_Name R = Some r'
    ∧ rooms st2 !! r' = Some (mkRoom (Room_Name R) {[Join_Name msg := v]})
    ∧ rooms st2 !! r = Some (mkRoom (Room_Name R) ∅)
    ∧ EvSend v (Roster (mkRoster [])) (negb (User_Leavec V)) ∈ events st2.
Proof.
  intros HR HU Hm Hlast HV Hroom Hl1 Hl2.
  set (st1 := leave_post st r R U).
  assert (Hreg1 : allRooms st1 !! Join_Room msg = None).
  { unfold st1, leave_post. simpl. rewrite decide_True by done.
    rewrite Hroom. apply lookup_delete_eq. }
  assert (HV1 : users st1 !! v = Some V) by done.
  assert (Hr1 : rooms st1 !! r = Some (mkRoom (Room_Name R) ∅)).
  { unfold st1, leave_post. simpl. rewrite Hlast. apply lookup_insert_eq. }
  pose proof (handleJoinMessage_new msg v st1 V) as Hrun2.
  rewrite <- !bad_length_false in Hl1, Hl2.
  specialize (Hrun2 Hl1 Hl2 Hreg1 HV1).
  set (r' := fresh (dom (rooms st1))) in *.
  assert (Hfresh : rooms st1 !! r' = None) by apply not_elem_of_dom, is_fresh.
  assert (Hne : r' ≠ r) by (intros Heq; rewrite Heq in Hfresh; congruence).
  exists st1, r', (join_post st1 msg v V r' (mkRoom (Join_Room msg) ∅) []).
  split; [by apply handleLeaveMessage_ok|].
  split; [by rewrite <- Hroom|].
  split; [done|]. split; [done|].
  split.
  { unfold st1, leave_post in Hfresh. simpl in Hfresh.
    by rewrite lookup_insert_ne in Hfresh. }
  split; [rewrite <- Hroom; simpl; apply lookup_insert_eq|].
  split; [rewrite <- Hroom; apply join_post_room|].
  split; [simpl; by rewrite lookup_insert_ne|].
  assert (Hroster : curUsers (mkRoom (Join_Room msg) (<[Join_Name msg := v]> ∅))
                      (Join_Name msg) = []).
  { apply elem_of_nil_inv. intros n Hin.
    apply elem_of_curUsers in Hin as [[w Hw] Hn]. simpl in Hw.
    rewrite lookup_insert_ne in Hw by done. by rewrite lookup_empty in Hw. }
  simpl. rewrite Hroster. unfold delivered. rewrite lookup_insert_eq. simpl.
  apply elem_of_app. right. apply elem_of_cons. right. apply elem_of_cons. by left.
Qed.

(** X7: [handleLeaveMessage] removes the registry entry by the room's
    name, without looking at which room object the entry holds.  Called on
    a room object that has no member left and is no longer the one
    registered under its name, it removes the entry of the room that now
    bears the name, although that room has members: the lifecycle
    invariant is lost.  So the function must be called once per join, on
    the room then joined. *)
Theorem leave_unregisters_by_name r u st R U r2 R2 :
  (∀ name r0, allRooms st !! name = Some r0 →
     ∃ R0, rooms st !! r0 = Some R0 ∧ Room_Name R0 = name) →
  rooms st !! r = Some R →
  users st !! u = Some U →
  members_ok st (Room_Users R) →
  delete (User_Name U) (Room_Users R) = ∅ →
  allRooms st !! Room_Name R = Some r2 →
  r2 ≠ r →
  rooms st !! r2 = Some R2 →
  Room_Users R2 ≠ ∅ →
  ∃ st',
    handleLeaveMessage r u st = Some (tt, st')
    ∧ allRooms st' = delete (Room_Name R) (allRooms st)
    ∧ rooms st' !! r2 = Some R2
    ∧ ¬ registered st' r2
    ∧ ¬ room_lifecycle st'.
Proof.
  intros Hkey HR HU Hm Hlast Hr2 Hne HR2 Hocc.
  exists (leave_post st r R U).
  assert (Hreg : allRooms (leave_post st r R U) = delete (Room_Name R) (allRooms st)).
  { unfold leave_post. simpl. by rewrite decide_True. }
  assert (HR2' : rooms (leave_post st r R U) !! r2 = Some R2).
  { unfold leave_post. simpl. by rewrite lookup_insert_ne. }
  assert (Hnot : ¬ registered (leave_post st r R U) r2).
  { intros [name Hname]. rewrite Hreg in Hname.
    apply lookup_delete_Some in Hname as [Hn Hname].
    destruct (Hkey _ _ Hname) as (R0 & HR0 & Hn0).
    destruct (Hkey _ _ Hr2) as (R1 & HR1 & Hn1). congruence. }
  split; [by apply handleLeaveMessage_ok|].
  split; [done|]. split; [done|]. split; [done|].
  intros [_ Hiff]. by apply Hnot, (Hiff r2 R2).
Qed.

(** ** The end of a connection *)


Lemma closeLeavec_ok u st U :
  users st !! u = Some U →
  closeLeavec u st
  = Some (tt, mkState (allRooms st) (rooms st)
                      (<[u := mkUser (User_Name U) true]> (users st)) (events st)).
Proof.
  intros HU. unfold closeLeavec. by rewrite run_bind, (derefUser_ok _ _ _ HU).
Qed.

(** The teardown of a session that has not joined. *)
Lemma teardown_not_joined s st U :
  users st !! user s = Some U →
  hasJoined s = false →
  teardown s st
  = Some (tt, mkState (allRooms st) (rooms st)
                      (<[user s := mkUser (User_Name U) true]> (users st))
                      (events st)).
Proof.
  intros HU Hj. unfold teardown. rewrite run_bind, (closeLeavec_ok _ _ _ HU).
  by rewrite Hj.
Qed.

(** The teardown of a session that has joined: the leave runs in the state
    in which the user's [Leavec] is closed. *)
Lemma teardown_joined s st U r R :
  users st !! user s = Some U →
  hasJoined s = true →
  room s = Some r →
  rooms st !! r = Some R →
  members_ok st (Room_Users R) →
  teardown s st
  = Some (tt, leave_post
                (mkState (allRooms st) (rooms st)
                   (<[user s := mkUser (User_Name U) true]> (users st)) (events st))
                r R (mkUser (User_Name U) true)).
Proof.
  intros HU Hj Hr HR Hm.
  unfold teardown. rewrite run_bind, (closeLeavec_ok _ _ _ HU).
  rewrite Hj, Hr. rewrite run_bind. cbn [nonnil ret mret M_ret].
  apply handleLeaveMessage_ok; [done|apply lookup_insert_eq|].
  intros name v Hv. simpl.
  destruct (decide (v = user s)) as [->|Hne].
  - rewrite lookup_insert_eq. by eexists.
  - rewrite lookup_insert_ne by done. by apply (Hm name).
Qed.


(** ** The accepted messages of the receive path *)

(** After the [switch]: an error of a handler is sent to the session's
    own user, and the loop goes on unless that send fails. *)
Lemma recvStep_dispatch s msg st s' oerr st1 U' :
  dispatch s msg st = Some (inr (s', oerr), st1) →
  users st1 !! user s' = Some U' →
  recvStep s (ReadOk msg) st
  = Some (match oerr with
          | Some err => if User_Leavec U' then Return s' (ErrSendFailed err)
                        else Continue s'
          | None => Continue s'
          end,
          match oerr with
          | Some err => add_events st1 [EvSend (user s') (Error (mkError err))
                                          (negb (User_Leavec U'))]
          | None => st1
          end).
Proof.
  intros Hd HU. unfold recvStep. rewrite run_bind, Hd.
  destruct oerr as [err|]; [|done].
  rewrite run_bind, (sendMessage_ok _ _ _ _ HU). cbn [ret mret M_ret].
  rewrite (delivered_lookup _ _ _ HU). by destruct (User_Leavec U').
Qed.

Lemma JoinOutcome_users msg u U st res st' :
  JoinOutcome msg u U st res st' →
  ∀ err, res = inl err → users st' = users st.
Proof. intros Hout err ->. by inversion Hout. Qed.

(** X9: a Join message of a session that has not joined.  The handler's
    result decides the join state: on success the session is joined, with
    the room the handler returned, and nothing more is sent; on an error
    the error's text is sent to the session's own user as an Error
    message, the session stays not joined with no room, and the loop goes
    on, so the client may try again. *)
Theorem recv_join_outcomes s msg decoded st U :
  no_dangling st →
  users st !! user s = Some U →
  User_Leavec U = false →
  hasJoined s = false →
  Type_ msg = TypeJoinMessage →
  unmarshalJoin (Raw msg) = inr decoded →
  ∃ res st1,
    handleJoinMessage decoded (user s) st = Some (res, st1)
    ∧ recvStep s (ReadOk msg) st
      = Some (match res with
              | inr r => (Continue (mkSession true (Some r) (user s)), st1)
              | inl err =>
                  (Continue (mkSession false None (user s)),
                   add_events st1 [EvSend (user s) (Error (mkError err)) true])
              end).
Proof.
  intros Hnd HU HL Hj Ht Hdec.
  destruct (handleJoinMessage_outcome decoded (user s) st U Hnd HU)
    as (res & st1 & Hrun & Hout).
  exists res, st1. split; [done|].
  destruct res as [err|r].
  - assert (HU1 : users st1 !! user s = Some U).
    { by rewrite (JoinOutcome_users _ _ _ _ _ _ Hout err). }
    rewrite (recvStep_dispatch s msg st (mkSession false None (user s))
               (Some err) st1 U); [by rewrite HL| |done].
    unfold dispatch. by rewrite Ht, Hj, Hdec, run_bind, Hrun.
  - unfold recvStep, dispatch. by rewrite Ht, Hj, Hdec, !run_bind, Hrun.
Qed.

(** X10: a Leave message of a session that has joined.  Its payload is not
    looked at.  The user is taken out of the room as by
    [handleLeaveMessage], nothing is sent in reply, and the session is
    back where a new connection starts: not joined, no room, and the
    user's [Name] empty; the loop goes on. *)
Theorem recv_leave_resets s msg st r R U :
  hasJoined s = true →
  room s = Some r →
  rooms st !! r = Some R →
  users st !! user s = Some U →
  members_ok st (Room_Users R) →
  Type_ msg = TypeLeaveMessage →
  ∃ st1 st',
    handleLeaveMessage r (user s) st = Some (tt, st1)
    ∧ recvStep s (ReadOk msg) st
      = Some (Continue (mkSession false None (user s)), st')
    ∧ allRooms st' = allRooms st1
    ∧ rooms st' = rooms st1
    ∧ users st' = <[user s := mkUser "" (User_Leavec U)]> (users st)
    ∧ events st' = events st1.
Proof.
  intros Hj Hr HR HU Hm Ht.
  set (st1 := leave_post st r R U).
  exists st1, (mkState (allRooms st1) (rooms st1)
                 (<[user s := mkUser "" (User_Leavec U)]> (users st1)) (events st1)).
  split; [by apply handleLeaveMessage_ok|].
  split; [|done].
  rewrite (recvStep_dispatch s msg st (mkSession false None (user s)) None
             (mkState (allRooms st1) (rooms st1)
                (<[user s := mkUser "" (User_Leavec U)]> (users st1)) (events st1))
             (mkUser "" (User_Leavec U))); [done| |apply lookup_insert_eq].
  unfold dispatch. rewrite Ht, Hj. cbn [negb].
  rewrite run_bind, Hr. cbn [nonnil ret mret M_ret].
  rewrite run_bind, (handleLeaveMessage_ok _ _ _ _ _ HR HU Hm).
  by rewrite run_bind, (setUserName_ok _ _ _ U).
Qed.

(** X11: Group and Private messages of a session that has joined never
    end the receive path.  A Group message is handed to
    [handleGroupMessage] and nothing is sent in reply.  A Private message
    is handed to [handlePrivateMessage]; when that returns an error (the
    recipient is not in the room, or the delivery failed) the error's text
    is sent back to the sender as an Error message.  The session's
    variables are unchanged in both cases. *)
Theorem recv_group_private s msg st r R U :
  hasJoined s = true →
  room s = Some r →
  rooms st !! r = Some R →
  users st !! user s = Some U →
  User_Leavec U = false →
  members_ok st (Room_Users R) →
  (∀ decoded,
     Type_ msg = TypeGroupMessage →
     unmarshalGroup (Raw msg) = inr decoded →
     ∃ st1,
       handleGroupMessage decoded r (user s) st = Some (None, st1)
       ∧ recvStep s (ReadOk msg) st = Some (Continue s, st1))
  ∧ (∀ decoded,
       Type_ msg = TypePrivateMessage →
       unmarshalPrivate (Raw msg) = inr decoded →
       ∃ res st1,
         handlePrivateMessage decoded r (user s) st = Some (res, st1)
         ∧ recvStep s (ReadOk msg) st
           = Some (Continue s,
                   match res with
                   | Some err =>
                       add_events st1 [EvSend (user s) (Error (mkError err)) true]
                   | None => st1
                   end)).
Proof.
  intros Hj Hr HR HU HL Hm. split.
  - intros decoded Ht Hdec. eexists.
    split; [by eapply handleGroupMessage_ok|].
    rewrite (recvStep_dispatch s msg st s None
               (add_events st
                  ([EvLock (RoomMutex r)]
                     ++ sends (users st)
                          (Group (mkGroup (User_Name U) (Group_Text decoded)))
                          (range_order (Room_Users R))
                     ++ [EvUnlock (RoomMutex r)])) U); [done| |done].
    unfold dispatch. rewrite Ht, Hj, Hdec. cbn [negb].
    rewrite run_bind, Hr. cbn [nonnil ret mret M_ret].
    by rewrite run_bind, (handleGroupMessage_ok _ _ _ _ _ _ HR HU Hm).
  - intros decoded Ht Hdec.
    assert (Hrun : ∃ res st1,
              handlePrivateMessage decoded r (user s) st = Some (res, st1)
              ∧ users st1 = users st).
    { destruct (Room_Users R !! Private_To decoded) as [to|] eqn:Hto.
      - destruct (Hm _ _ Hto) as [T HT]. eexists _, _.
        split; [by eapply handlePrivateMessage_member|done].
      - eexists _, _. split; [by eapply handlePrivateMessage_absent|done]. }
    destruct Hrun as (res & st1 & Hrun & Hus).
    exists res, st1. split; [done|].
    assert (HU1 : users st1 !! user s = Some U) by by rewrite Hus.
    rewrite (recvStep_dispatch s msg st s res st1 U); [| |done].
    + rewrite HL. by destruct res.
    + unfold dispatch. rewrite Ht, Hj, Hdec. cbn [negb].
      rewrite run_bind, Hr. cbn [nonnil ret mret M_ret].
      by rewrite run_bind, Hrun.
Qed.

(** ** When the receive path returns *)

Lemma fatal_input_recvStep s rr f st :
  fatal_input s rr f → recvStep s rr st = Some (Return s f, st).
Proof.
  intros [err|msg err Ht Hj Hd|msg err Ht Hj Hd|msg err Ht Hj Hd|msg H1 H2 H3 H4].
  - done.
  - unfold recvStep, dispatch. by rewrite run_bind, Ht, Hj, Hd.
  - unfold recvStep, dispatch. by rewrite run_bind, Ht, Hj, Hd.
  - unfold recvStep, dispatch. by rewrite run_bind, Ht, Hj, Hd.
  - unfold recvStep, dispatch. rewrite run_bind. by destruct (Type_ msg).
Qed.

Lemma fatal_input_not_send s rr f err : fatal_input s rr f → f ≠ ErrSendFailed err.
Proof. by intros []. Qed.

(** A [return] inside the [switch] comes from a fatal input and leaves the
    state as it was. *)
Lemma dispatch_inl s msg st f st1 :
  dispatch s msg st = Some (inl f, st1) →
  st1 = st ∧ fatal_input s (ReadOk msg) f.
Proof.
  unfold dispatch. intros H.
  destruct (Type_ msg) eqn:Ht.
  - destruct (hasJoined s) eqn:Hj; [done|].
    destruct (unmarshalJoin (Raw msg)) as [err|decoded] eqn:Hd.
    + injection H as <- <-. split; [done|]. by apply fatal_join.
    + rewrite run_bind in H.
      by destruct (handleJoinMessage decoded (user s) st) as [[[err|r] st2]|].
  - destruct (hasJoined s) eqn:Hj; [|done]. cbn [negb] in H.
    rewrite run_bind in H. destruct (room s) as [r|]; [|done].
    cbn [nonnil ret mret M_ret] in H. rewrite run_bind in H.
    destruct (handleLeaveMessage r (user s) st) as [[[] st2]|]; [|done].
    rewrite run_bind in H.
    by destruct (setUserName (user s) "" st2) as [[[] st3]|].
  - destruct (hasJoined s) eqn:Hj; [|done]. cbn [negb] in H.
    destruct (unmarshalGroup (Raw msg)) as [err|decoded] eqn:Hd.
    + injection H as <- <-. split; [done|]. by apply fatal_group.
    + rewrite run_bind in H. destruct (room s) as [r|]; [|done].
      cbn [nonnil ret mret M_ret] in H. rewrite run_bind in H.
      by destruct (handleGroupMessage decoded r (user s) st) as [[res st2]|].
  - destruct (hasJoined s) eqn:Hj; [|done]. cbn [negb] in H.
    destruct (unmarshalPrivate (Raw msg)) as [err|decoded] eqn:Hd.
    + injection H as <- <-. split; [done|]. by apply fatal_private.
    + rewrite run_bind in H. destruct (room s) as [r|]; [|done].
      cbn [nonnil ret mret M_ret] in H. rewrite run_bind in H.
      by destruct (handlePrivateMessage decoded r (user s) st) as [[res st2]|].
  - injection H as <- <-. split; [done|]. rewrite <- Ht.
    apply fatal_type; by rewrite Ht.
  - injection H as <- <-. split; [done|]. rewrite <- Ht.
    apply fatal_type; by rewrite Ht.
  - injection H as <- <-. split; [done|]. rewrite <- Ht.
    apply fatal_type; by rewrite Ht.
Qed.

(** One iteration in a state that satisfies the invariants: it goes on
    with the invariants kept, or it returns on a fatal input with nothing
    changed. *)
Lemma recvStep_cases st ss sid s rr :
  sys_inv (mkSystem st ss) →
  ss !! sid = Some s →
  ∃ res st',
    recvStep s rr st = Some (res, st')
    ∧ match res with
      | Continue s' =>
          user s' = user s ∧ sys_inv (mkSystem st' (<[sid := s']> ss))
      | Return s' f => s' = s ∧ st' = st ∧ fatal_input s rr f
      end.
Proof.
  intros Hinv Hs. destruct rr as [err|msg].
  { eexists _, _. split; [reflexivity|]. split; [done|]. split; [done|constructor]. }
  destruct (dispatch_inv st ss sid s msg Hinv Hs) as (d & st1 & Hd & Hpost).
  unfold recvStep. rewrite run_bind, Hd.
  destruct d as [fatal|[s' [err|]]].
  - apply dispatch_inl in Hd as [_ Hf]. subst st1.
    eexists _, _. split; [reflexivity|]. by split.
  - destruct Hpost as [Hu Hinv1].
    destruct (inv_sessions _ Hinv1 sid s') as (U & HU & HL & _);
      [apply lookup_insert_eq|]. simpl in HU.
    rewrite run_bind, (sendMessage_ok _ _ _ _ HU). rewrite HL.
    eexists _, _. split; [reflexivity|]. simpl. split; [done|].
    eapply sys_inv_ext; [..|exact Hinv1]; done.
  - destruct Hpost as [Hu Hinv1].
    eexists _, _. split; [reflexivity|]. done.
Qed.

(** X12: when the receive path of a live session returns.  In every
    reachable state one iteration either goes on or returns, and it
    returns exactly on a fatal input: a failed read, a frame that does not
    decode, a payload that does not decode in a state where the message is
    accepted, or a message of another type.  A return leaves the state and
    the session's variables as they were.  An error of a handler never
    ends the receive path, and the return for a failed send of the error
    to the client is never taken: a live session's [Leavec] is open. *)
Theorem reachable_return_iff_fatal σ sid s c :
  reachable σ →
  sessions σ !! sid = Some s →
  ∃ res st',
    recvStep s (readMessage c) (sys_state σ) = Some (res, st')
    ∧ (∀ s' f, res = Return s' f ↔ s' = s ∧ fatal_input s (readMessage c) f)
    ∧ (∀ s' f, res = Return s' f →
         st' = sys_state σ ∧ ∀ err, f ≠ ErrSendFailed err)
    ∧ (∀ err, c = inl err ∨ (∃ b, c = inr b ∧ unmarshalMessage b = inl err) →
         res = Return s (ErrRead err)).
Proof.
  intros Hreach Hs. destruct σ as [st ss]. simpl in *.
  destruct (recvStep_cases st ss sid s (readMessage c) (reachable_inv _ Hreach) Hs)
    as (res & st' & Hrun & Hpost).
  exists res, st'. split; [done|].
  assert (Hfatal : ∀ f, fatal_input s (readMessage c) f → res = Return s f).
  { intros f Hf. rewrite (fatal_input_recvStep _ _ _ st Hf) in Hrun. congruence. }
  split; [|split].
  - intros s' f. split.
    + intros ->. by destruct Hpost as (-> & _ & Hf).
    + intros [-> Hf]. by apply Hfatal.
  - intros s' f ->. destruct Hpost as (_ & -> & Hf). split; [done|].
    intros err. by eapply fatal_input_not_send.
  - intros err Hc. apply Hfatal.
    destruct Hc as [->|(b & -> & Hb)]; simpl; [|rewrite Hb]; constructor.
Qed.

(** X13: no nil dereference.  In every reachable state a live session
    takes its next step on any input: the iteration of the receive path
    runs to its end, and when it returns, so does the teardown that
    follows, in which a session that has joined leaves the room it holds. *)
Theorem reachable_next_step σ sid s rr :
  reachable σ →
  sessions σ !! sid = Some s →
  ∃ res st' σ',
    recvStep s rr (sys_state σ) = Some (res, st')
    ∧ step σ σ'
    ∧ match res with
      | Continue s' => σ' = mkSystem st' (<[sid := s']> (sessions σ))
      | Return s' _ =>
          ∃ st'', teardown s' st' = Some (tt, st'')
                  ∧ σ' = mkSystem st'' (delete sid (sessions σ))
      end.
Proof.
  intros Hreach Hs. destruct σ as [st ss]. simpl in *.
  pose proof (reachable_inv _ Hreach) as Hinv.
  destruct (recvStep_cases st ss sid s rr Hinv Hs) as (res & st' & Hrun & Hpost).
  destruct res as [s'|s' f].
  - exists (Continue s'), st', (mkSystem st' (<[sid := s']> ss)).
    split; [done|]. split; [by eapply step_recv|done].
  - destruct Hpost as (-> & -> & _).
    destruct (teardown_inv st ss sid s Hinv Hs) as (st'' & Htd & _).
    exists (Return s f), st, (mkSystem st'' (delete sid ss)).
    split; [done|]. split; [by eapply step_return|]. by exists st''.
Qed.

(** ** Rooms and sessions in reachable states *)

(** X14: rooms hold connected users only.  In every reachable state each
    member of each room object is the user of a live session that has
    joined that very room, and the member is stored under the user's
    current [Name]. *)
Theorem reachable_members_live σ r R name v :
  reachable σ →
  rooms (sys_state σ) !! r = Some R →
  Room_Users R !! name = Some v →
  ∃ sid V,
    sessions σ !! sid = Some (mkSession true (Some r) v)
    ∧ users (sys_state σ) !! v = Some V
    ∧ User_Name V = name.
Proof.
  intros Hreach HR Hv. pose proof (reachable_inv _ Hreach) as Hinv.
  destruct (inv_members _ Hinv _ _ _ _ HR Hv)
    as (sid & s & V & Hs & Hu & Hj & Hr & HV & Hn).
  exists sid, V. destruct s as [j ro u]. simpl in *. subst.
  split; [done|]. by split.
Qed.

(** X15: a user is in one room at most, under one name.  In every
    reachable state, two memberships of the same user are the same
    membership. *)
Theorem reachable_one_room σ r1 R1 n1 r2 R2 n2 v :
  reachable σ →
  rooms (sys_state σ) !! r1 = Some R1 →
  Room_Users R1 !! n1 = Some v →
  rooms (sys_state σ) !! r2 = Some R2 →
  Room_Users R2 !! n2 = Some v →
  r1 = r2 ∧ n1 = n2.
Proof.
  intros Hreach HR1 Hv1 HR2 Hv2. pose proof (reachable_inv _ Hreach) as Hinv.
  destruct (inv_members _ Hinv _ _ _ _ HR1 Hv1)
    as (sid1 & s1 & V1 & Hs1 & Hu1 & _ & Hr1 & HV1 & Hn1).
  destruct (inv_members _ Hinv _ _ _ _ HR2 Hv2)
    as (sid2 & s2 & V2 & Hs2 & Hu2 & _ & Hr2 & HV2 & Hn2).
  assert (sid1 = sid2) as <-.
  { apply (inv_users _ Hinv _ _ s1 s2); [done..|congruence]. }
  split; congruence.
Qed.

(** X16: a room is registered exactly as long as a live session has joined
    it.  In every reachable state the room object at [r] is in the
    registry if and only if some live session has joined and holds [r];
    so when no session is live the registry is empty and no room object
    has a member. *)
Theorem reachable_registered_iff_joined σ r :
  reachable σ →
  (registered (sys_state σ) r
   ↔ ∃ sid u, sessions σ !! sid = Some (mkSession true (Some r) u))
  ∧ (sessions σ = ∅ →
     allRooms (sys_state σ) = ∅
     ∧ ∀ r' R', rooms (sys_state σ) !! r' = Some R' → Room_Users R' = ∅).
Proof.
  intros Hreach. pose proof (reachable_inv _ Hreach) as Hinv.
  destruct (inv_lifecycle _ Hinv) as [Hkey Hiff].
  assert (Hmem : ∀ r0 R0, rooms (sys_state σ) !! r0 = Some R0 →
            Room_Users R0 ≠ ∅ →
            ∃ sid u, sessions σ !! sid = Some (mkSession true (Some r0) u)).
  { intros r0 R0 HR0 Hocc. apply map_choose in Hocc as (name & v & Hv).
    destruct (inv_members _ Hinv _ _ _ _ HR0 Hv)
      as (sid & s & V & Hs & Hu & Hj & Hr & _).
    exists sid, v. destruct s as [j ro u]. simpl in *. by subst. }
  split; [split|].
  - intros [name Hname]. destruct (Hkey _ _ Hname) as (R & HR & _).
    apply (Hmem r R HR). apply (Hiff _ _ HR). by exists name.
  - intros (sid & u & Hs).
    destruct (inv_sessions _ Hinv _ _ Hs) as (U & HU & HL & r' & R & Hr & HR & Hin).
    simpl in Hr. injection Hr as <-. apply (Hiff _ _ HR).
    intros He. by rewrite He in Hin.
  - intros Hnone.
    assert (Hempty : ∀ r' R', rooms (sys_state σ) !! r' = Some R' → Room_Users R' = ∅).
    { intros r' R' HR'. destruct (decide (Room_Users R' = ∅)) as [|Hocc]; [done|].
      destruct (Hmem _ _ HR' Hocc) as (sid & u & Hs).
      by rewrite Hnone in Hs. }
    split; [|done]. apply map_empty. intros name.
    destruct (allRooms (sys_state σ) !! name) as [r'|] eqn:Hname; [|done].
    destruct (Hkey _ _ Hname) as (R' & HR' & _).
    assert (Hocc : Room_Users R' ≠ ∅) by (apply (Hiff _ _ HR'); by exists name).
    by destruct Hocc, (Hempty _ _ HR').
Qed.

(** ** Properties of the registry and the rooms that joins and leaves keep *)

Section Preserve.

(** A property of the registry and the rooms that every outcome of
    [handleJoinMessage] and every [handleLeaveMessage] keeps. *)
Variable P : State → Prop.
Hypothesis P_ext : ∀ st st',
  allRooms st = allRooms st' → rooms st = rooms st' → P st → P st'.
Hypothesis P_join : ∀ msg u U st res st',
  P st → JoinOutcome msg u U st res st' → P st'.
Hypothesis P_leave : ∀ st r R U,
  P st → rooms st !! r = Some R → P (leave_post st r R U).

Lemma dispatch_preserves st ss sid s msg :
  sys_inv (mkSystem st ss) →
  ss !! sid = Some s →
  P st →
  ∃ d st1, dispatch s msg st = Some (d, st1) ∧ P st1.
Proof.
  intros Hinv Hs HP.
  pose proof (sys_inv_no_dangling _ Hinv) as Hnd. simpl in Hnd.
  destruct (inv_sessions _ Hinv _ _ Hs) as (U & HU & HL & Hj). simpl in HU, Hj.
  unfold dispatch. destruct (Type_ msg) eqn:Ht;
    try (eexists _, _; split; [reflexivity|done]).
  - destruct (hasJoined s) eqn:Hjoined.
    { eexists _, _. split; [reflexivity|done]. }
    destruct (unmarshalJoin (Raw msg)) as [err|decoded].
    { eexists _, _. split; [reflexivity|done]. }
    destruct (handleJoinMessage_outcome decoded (user s) st U Hnd HU)
      as (res & st' & Hrun & Hout).
    rewrite run_bind, Hrun. pose proof (P_join _ _ _ _ _ _ HP Hout) as HP'.
    destruct res; eexists _, _; (split; [reflexivity|done]).
  - destruct (hasJoined s) eqn:Hjoined; cbn [negb].
    2:{ eexists _, _. split; [reflexivity|done]. }
    destruct Hj as (r & R & Hr & HR & Hmem).
    assert (Hm : members_ok st (Room_Users R)) by by apply (proj2 Hnd r).
    rewrite run_bind, Hr. cbn [nonnil ret mret M_ret].
    rewrite run_bind, (handleLeaveMessage_ok _ _ _ _ _ HR HU Hm).
    rewrite run_bind, (setUserName_ok _ _ _ U) by done.
    eexists _, _. split; [reflexivity|].
    eapply P_ext; [| |by apply (P_leave st r R U)]; done.
  - destruct (hasJoined s) eqn:Hjoined; cbn [negb].
    2:{ eexists _, _. split; [reflexivity|done]. }
    destruct (unmarshalGroup (Raw msg)) as [err|decoded].
    { eexists _, _. split; [reflexivity|done]. }
    destruct Hj as (r & R & Hr & HR & Hmem).
    assert (Hm : members_ok st (Room_Users R)) by by apply (proj2 Hnd r).
    rewrite run_bind, Hr. cbn [nonnil ret mret M_ret].
    rewrite run_bind, (handleGroupMessage_ok _ _ _ _ _ _ HR HU Hm).
    eexists _, _. split; [reflexivity|]. eapply P_ext; [| |exact HP]; done.
  - destruct (hasJoined s) eqn:Hjoined; cbn [negb].
    2:{ eexists _, _. split; [reflexivity|done]. }
    destruct (unmarshalPrivate (Raw msg)) as [err|decoded].
    { eexists _, _. split; [reflexivity|done]. }
    destruct Hj as (r & R & Hr & HR & Hmem).
    assert (Hm : members_ok st (Room_Users R)) by by apply (proj2 Hnd r).
    rewrite run_bind, Hr. cbn [nonnil ret mret M_ret].
    destruct (Room_Users R !! Private_To decoded) as [to|] eqn:Hto.
    + destruct (Hm _ _ Hto) as [T HT].
      rewrite run_bind, (handlePrivateMessage_member _ _ _ _ _ _ _ _ HR HU Hto HT).
      eexists _, _. split; [reflexivity|]. eapply P_ext; [| |exact HP]; done.
    + rewrite run_bind, (handlePrivateMessage_absent _ _ _ _ _ HR Hto).
      eexists _, _. split; [reflexivity|]. eapply P_ext; [| |exact HP]; done.
Qed.

Lemma step_preserves σ σ' :
  sys_inv σ → P (sys_state σ) → step σ σ' → P (sys_state σ').
Proof.
  intros Hinv HP Hstep.
  assert (Hrecv : ∀ st ss sid s rr res st',
            sys_inv (mkSystem st ss) → ss !! sid = Some s → P st →
            recvStep s rr st = Some (res, st') → P st').
  { intros st ss sid s rr res st' Hinv0 Hs HP0 Hrun. destruct rr as [err|msg].
    { by injection Hrun as <- <-. }
    destruct (dispatch_preserves st ss sid s msg Hinv0 Hs HP0) as (d & st1 & Hd & HP1).
    unfold recvStep in Hrun. rewrite run_bind, Hd in Hrun.
    destruct d as [fatal|[s' [err|]]].
    - by injection Hrun as <- <-.
    - rewrite run_bind in Hrun. unfold sendMessage in Hrun.
      rewrite run_bind in Hrun. unfold derefUser in Hrun.
      destruct (users st1 !! user s') as [U'|]; [|done].
      injection Hrun as <- <-. eapply P_ext; [| |exact HP1]; done.
    - by injection Hrun as <- <-. }
  destruct Hstep as [st ss s st' Hc|st ss sid s rr s' st' Hs Hrun
                     |st ss sid s rr s' err st' st'' Hs Hrun Htd]; simpl in *.
  - injection Hc as <- <-. eapply P_ext; [| |exact HP]; done.
  - by eapply Hrecv.
  - destruct (recvStep_inv st ss sid s rr Hinv Hs) as (res & st0 & Hrun0 & Hinv0).
    rewrite Hrun in Hrun0. injection Hrun0 as <- <-. destruct Hinv0 as [-> Hinv0].
    assert (HP' : P st')
      by exact (Hrecv st ss sid s rr (Return s err) st' Hinv Hs HP Hrun).
    destruct (inv_sessions _ Hinv0 _ _ Hs) as (U & HU & HL & Hj). simpl in HU, Hj.
    pose proof (sys_inv_no_dangling _ Hinv0) as Hnd. simpl in Hnd.
    destruct (hasJoined s) eqn:Hjoined.
    + destruct Hj as (r & R & Hr & HR & Hmem).
      assert (Hm : members_ok st' (Room_Users R)) by by apply (proj2 Hnd r).
      rewrite (teardown_joined s st' U r R HU Hjoined Hr HR Hm) in Htd.
      injection Htd as <-.
      eapply P_ext; [| |by apply (P_leave st' r R U)]; done.
    + rewrite (teardown_not_joined s st' U HU Hjoined) in Htd. injection Htd as <-.
      eapply P_ext; [| |exact HP']; done.
Qed.

Lemma reachable_preserves σ : P st_init → reachable σ → P (sys_state σ).
Proof.
  intros Hinit. induction 1 as [|σ σ' Hreach IH Hstep]; [done|].
  eapply step_preserves; [by apply reachable_inv|done..].
Qed.

End Preserve.

Lemma names_ok_ext st st' :
  allRooms st = allRooms st' → rooms st = rooms st' → names_ok st → names_ok st'.
Proof. unfold names_ok. by intros <- <-. Qed.

Lemma names_ok_join_post st msg u U r R locks :
  names_ok st →
  bad_length (Join_Room msg) = false →
  bad_length (Join_Name msg) = false →
  rooms st !! r = Some R ∨ R = mkRoom (Join_Room msg) ∅ →
  names_ok (join_post st msg u U r R locks).
Proof.
  intros [Hreg Hrooms] H1 H2 Hcase.
  assert (HR : bad_length (Room_Name R) = false
               ∧ ∀ n v, Room_Users R !! n = Some v → bad_length n = false).
  { destruct Hcase as [HR| ->]; [by apply (Hrooms r)|].
    split; [done|]. intros n v Hv. simpl in Hv. by rewrite lookup_empty in Hv. }
  split.
  - intros name r' Hname. simpl in Hname.
    apply lookup_insert_Some in Hname as [[<- _]|[_ Hname]]; [done|].
    by apply (Hreg name r').
  - intros r' R' HR'. simpl in HR'.
    apply lookup_insert_Some in HR' as [[_ <-]|[_ HR']]; [|by apply (Hrooms r')].
    simpl. split; [apply HR|]. intros n v Hv.
    apply lookup_insert_Some in Hv as [[<- _]|[_ Hv]]; [done|].
    by apply (proj2 HR n v).
Qed.

Lemma names_ok_leave_post st r R U :
  names_ok st → rooms st !! r = Some R → names_ok (leave_post st r R U).
Proof.
  intros [Hreg Hrooms] HR. destruct (Hrooms _ _ HR) as [Hn Hmem]. split.
  - intros name r' Hname. unfold leave_post in Hname. simpl in Hname.
    destruct (decide _); [apply lookup_delete_Some in Hname as [_ Hname]|];
      by apply (Hreg name r').
  - intros r' R' HR'. simpl in HR'.
    apply lookup_insert_Some in HR' as [[_ <-]|[_ HR']]; [|by apply (Hrooms r')].
    simpl. split; [done|]. intros n v Hv.
    apply lookup_delete_Some in Hv as [_ Hv]. by apply (Hmem n v).
Qed.

(** X17: names are validated once and for all.  In every reachable state
    each key of the registry, each room object's name and each nickname
    under which a room holds a member is between 1 and 128 bytes long, and
    a registered room bears the name it is registered under. *)
Theorem reachable_names_valid σ :
  reachable σ →
  (∀ name r, allRooms (sys_state σ) !! name = Some r →
     (1 ≤ String.length name ≤ 128)%nat
     ∧ ∃ R, rooms (sys_state σ) !! r = Some R ∧ Room_Name R = name)
  ∧ (∀ r R, rooms (sys_state σ) !! r = Some R →
       (1 ≤ String.length (Room_Name R) ≤ 128)%nat
       ∧ ∀ n v, Room_Users R !! n = Some v → (1 ≤ String.length n ≤ 128)%nat).
Proof.
  intros Hreach.
  assert (Hnames : names_ok (sys_state σ)).
  { apply (reachable_preserves names_ok); [exact names_ok_ext| | |by split|done].
    - intros msg u U st res st' Hok Hout.
      destruct Hout as [H1|H1 H2|r R H1 H2 Hr HR Hin|r R H1 H2 Hr HR Hn Hm|H1 H2 Hr];
        try done.
      + apply names_ok_join_post; [done..|by left].
      + apply names_ok_join_post; [done..|by right].
    - intros st r R U. apply names_ok_leave_post. }
  destruct Hnames as [Hreg Hrooms].
  destruct (inv_lifecycle _ (reachable_inv _ Hreach)) as [Hkey _].
  split.
  - intros name r Hname. split; [|by apply Hkey].
    apply bad_length_false. by apply (Hreg name r).
  - intros r R HR. destruct (Hrooms _ _ HR) as [Hn Hmem].
    split; [by apply bad_length_false|].
    intros n v Hv. apply bad_length_false. by apply (Hmem n v).
Qed.

End Server.

(** ** Facts about the example states *)

(** [map_to_list] is one of the orders [range] may take. *)
Lemma range_map_to_list (m : gmap string ptr) : map_to_list m ≡ₚ map_to_list m.
Proof. reflexivity. Qed.

Lemma room_lifecycle_st_lobby : room_lifecycle st_lobby.
Proof.
  split.
  - intros name r Hr. simpl in Hr.
    apply lookup_insert_Some in Hr as [[<- <-]|[_ Hr]]; [|done].
    eexists. split; [apply lookup_insert_eq|done].
  - intros r R HR. simpl in HR.
    apply lookup_insert_Some in HR as [[<- <-]|[_ HR]]; [|done].
    split.
    + intros _. apply insert_non_empty.
    + intros _. by exists "lobby".
Qed.

Lemma bob_is_free : ¬ name_in_use st_lobby "lobby" "bob".
Proof.
  intros (r & R & Hr & HR & [v Hv]).
  vm_compute in Hr. injection Hr as <-.
  vm_compute in HR. injection HR as <-.
  vm_compute in Hv. discriminate.
Qed.

(** ** The theorems at concrete inputs *)


Lemma join_error_iff_witness :
  ∃ res st',
    handleJoinMessage map_to_list (mkJoin "alice" "lobby") 1 st_lobby = Some (res, st')
    ∧ ((∃ err, res = inl err)
       ↔ (¬ (1 ≤ String.length "lobby" ≤ 128)%nat
          ∨ ¬ (1 ≤ String.length "alice" ≤ 128)%nat
          ∨ name_in_use st_lobby "lobby" "alice"))
    ∧ ((∃ err, res = inl err) →
       allRooms st' = allRooms st_lobby ∧ rooms st' = rooms st_lobby
       ∧ users st' = users st_lobby).
Proof.
  apply (join_error_iff map_to_list range_map_to_list
           (mkJoin "alice" "lobby") 1 st_lobby (mkUser "" false)).
  - apply (bool_decide_unpack _). vm_compute. exact I.
  - reflexivity.
Defined.

Lemma private_outcomes_witness :
  ∃ res st',
    handlePrivateMessage (mkPrivate "" "carol" "hey") 0 0 st_lobby = Some (res, st')
    ∧ (res = None ↔
       ∃ to, (<["carol" := 2]> (<["alice" := 0]> ∅) : gmap string ptr) !! "carol" = Some to
             ∧ delivered (users st_lobby) to = true).
Proof.
  destruct (private_outcomes (mkPrivate "" "carol" "hey") 0 0 st_lobby
              (mkRoom "lobby" (<["carol" := 2]> (<["alice" := 0]> ∅)))
              (mkUser "alice" false))
    as (res & st' & Hrun & _ & _ & _ & Hiff & _).
  - reflexivity.
  - reflexivity.
  - apply (bool_decide_unpack _). vm_compute. exact I.
  - exists res, st'. split; [exact Hrun|exact Hiff].
Defined.

Lemma join_sends_roster_witness :
  ∃ r st' names,
    handleJoinMessage map_to_list (mkJoin "bob" "lobby") 1 st_lobby = Some (inr r, st')
    ∧ EvSend 1 (Roster (mkRoster names)) true ∈ events st'
    ∧ NoDup names.
Proof.
  destruct (join_sends_roster map_to_list range_map_to_list
              (mkJoin "bob" "lobby") 1 st_lobby (mkUser "" false))
    as (r & st' & R' & U' & pre & names & post & Hrun & _ & _ & _ & Hev & Hnd & _).
  - apply (bool_decide_unpack _). vm_compute. exact I.
  - reflexivity.
  - simpl. lia.
  - simpl. lia.
  - exact bob_is_free.
  - exists r, st', names. split; [exact Hrun|]. split; [|exact Hnd].
    rewrite Hev, !elem_of_app, list_elem_of_singleton. auto.
Defined.

Lemma join_broadcast_includes_self_witness :
  ∃ r st' bcast,
    handleJoinMessage map_to_list (mkJoin "bob" "lobby") 1 st_lobby = Some (inr r, st')
    ∧ EvSend 1 (Join (mkJoin "bob" "")) true ∈ bcast
    ∧ length bcast = 3.
Proof.
  destruct (join_broadcast_includes_self map_to_list range_map_to_list
              (mkJoin "bob" "lobby") 1 st_lobby (mkUser "" false))
    as (r & st' & R' & pre & bcast & Hrun & HR' & _ & _ & _ & _ & Hlen & Hin).
  - apply (bool_decide_unpack _). vm_compute. exact I.
  - reflexivity.
  - simpl. lia.
  - simpl. lia.
  - exact bob_is_free.
  - exists r, st', bcast. split; [exact Hrun|]. split; [exact Hin|].
    rewrite Hlen. clear Hlen Hin. vm_compute in Hrun.
    injection Hrun as <- <-. vm_compute in HR'. injection HR' as <-.
    reflexivity.
Defined.

Lemma leave_broadcasts_to_remaining_witness :
  ∃ st' bcast,
    handleLeaveMessage map_to_list 0 0 st_lobby = Some (tt, st')
    ∧ rooms st' !! 0 = Some (mkRoom "lobby" (delete "alice" (<["carol" := 2]> (<["alice" := 0]> ∅))))
    ∧ ∀ m ok, EvSend 0 m ok ∉ (bcast : list Event).
Proof.
  destruct (leave_broadcasts_to_remaining map_to_list range_map_to_list 0 0 st_lobby
              (mkRoom "lobby" (<["carol" := 2]> (<["alice" := 0]> ∅)))
              (mkUser "alice" false))
    as (st' & bcast & Hrun & HR' & _ & _ & _ & _ & _ & _ & Hnot & _).
  - reflexivity.
  - reflexivity.
  - apply (bool_decide_unpack _). vm_compute. exact I.
  - exists st', bcast. split; [exact Hrun|]. split; [exact HR'|]. apply Hnot.
    intros name Hname. simpl in Hname |- *.
    apply lookup_insert_Some in Hname as [[_ ?]|[_ Hname]]; [done|].
    by apply lookup_insert_Some in Hname as [[<- _]|[_ ?]].
Defined.

Lemma group_broadcasts_to_all_witness :
  ∃ st' bcast,
    handleGroupMessage map_to_list (mkGroup "" "hi") 0 0 st_lobby = Some (None, st')
    ∧ rooms st' = rooms st_lobby
    ∧ length bcast = 2
    ∧ EvSend 0 (Group (mkGroup "alice" "hi")) true ∈ bcast.
Proof.
  destruct (group_broadcasts_to_all map_to_list range_map_to_list (mkGroup "" "hi") 0 0
              st_lobby (mkRoom "lobby" (<["carol" := 2]> (<["alice" := 0]> ∅)))
              (mkUser "alice" false))
    as (st' & bcast & Hrun & _ & Hrooms & _ & _ & _ & Hlen & Hin).
  - reflexivity.
  - reflexivity.
  - apply (bool_decide_unpack _). vm_compute. exact I.
  - exists st', bcast. split; [exact Hrun|]. split; [exact Hrooms|].
    split; [rewrite Hlen; reflexivity|]. apply Hin. reflexivity.
Defined.

Lemma recv_guards_witness :
  recvStep map_to_list unit no_payload no_payload no_payload
    (mkSession false None 1) (ReadOk unit (mkMessage unit TypeGroupMessage tt)) st_lobby
  = Some (Continue (mkSession false None 1),
          add_events st_lobby
            [EvSend 1 (Error (mkError "You need to join a room to do that.")) true]).
Proof.
  apply (recv_guards map_to_list unit no_payload no_payload no_payload
           (mkSession false None 1) (mkMessage unit TypeGroupMessage tt)
           st_lobby (mkUser "" false)).
  - reflexivity.
  - reflexivity.
  - right; left. reflexivity.
  - reflexivity.
Defined.

Lemma registry_mutex_before_room_mutex_witness :
  ∃ st' evs,
    handleLeaveMessage map_to_list 0 0 st_lobby = Some (tt, st')
    ∧ events st' = events st_lobby ++ evs
    ∧ lock_order_ok [] evs = true
    ∧ lock_trace evs = [EvLock allRoomsMutex; EvLock (RoomMutex 0);
                        EvUnlock (RoomMutex 0); EvUnlock allRoomsMutex].
Proof.
  apply (registry_mutex_before_room_mutex map_to_list range_map_to_list
           (mkJoin "bob" "lobby") (mkGroup "" "hi") (mkPrivate "" "carol" "hey")
           0 0 st_lobby
           (mkRoom "lobby" (<["carol" := 2]> (<["alice" := 0]> ∅)))
           (mkUser "alice" false)).
  - apply (bool_decide_unpack _). vm_compute. exact I.
  - reflexivity.
  - reflexivity.
Defined.

Lemma private_to_self_witness :
  ∃ res st',
    handlePrivateMessage (mkPrivate "" "alice" "note") 0 0 st_lobby = Some (res, st')
    ∧ res = None
    ∧ EvSend 0 (Private (mkPrivate "alice" "" "note")) true ∈ events st'.
Proof.
  destruct (private_to_self (mkPrivate "" "alice" "note") 0 0 st_lobby
              (mkRoom "lobby" (<["carol" := 2]> (<["alice" := 0]> ∅)))
              (mkUser "alice" false))
    as (res & st' & Hrun & _ & Hnone & Hev).
  - reflexivity.
  - reflexivity.
  - reflexivity.
  - reflexivity.
  - exists res, st'. split; [exact Hrun|]. split; [apply Hnone; reflexivity|].
    rewrite Hev. simpl. rewrite !elem_of_cons. auto.
Defined.

(** ** A reachable system *)

(** The steps of a connection and of a message that is handled, with the
    resulting session map given by an equation. *)
Lemma step_connect_at range_order RawMessage dj dg dp st ss s st' ss' :
  connect st = Some (s, st') →
  ss' = <[fresh (dom ss) := s]> ss →
  step range_order RawMessage dj dg dp (mkSystem st ss) (mkSystem st' ss').
Proof. intros Hc ->. by apply step_connect. Qed.

Lemma step_recv_at range_order RawMessage dj dg dp st ss sid s rr s' st' ss' :
  ss !! sid = Some s →
  recvStep range_order RawMessage dj dg dp s rr st = Some (Continue s', st') →
  ss' = <[sid := s']> ss →
  step range_order RawMessage dj dg dp (mkSystem st ss) (mkSystem st' ss').
Proof. intros Hs Hrun ->. by eapply step_recv. Qed.

(** [sys_two] is reached by a connection, its join of "lobby" as "alice",
    and a second connection. *)
Lemma reachable_sys_two :
  reachable map_to_list JoinMessage inr undecodable undecodable sys_two.
Proof.
  apply (reachable_step _ _ _ _ _
           (mkSystem
              (mkState (<["lobby" := 0]> ∅)
                 (<[0 := mkRoom "lobby" (<["alice" := 0]> ∅)]> ∅)
                 (<[0 := mkUser "alice" false]> ∅)
                 (events st_two))
              (<[0 := mkSession true (Some 0) 0]> ∅))).
  - apply (reachable_step _ _ _ _ _
             (mkSystem (mkState ∅ ∅ (<[0 := mkUser "" false]> ∅) [])
                (<[0 := mkSession false None 0]> ∅))).
    + apply (reachable_step _ _ _ _ _ (mkSystem st_init ∅)).
      * apply reachable_init.
      * apply (step_connect_at _ _ _ _ _ _ _ (mkSession false None 0));
          [reflexivity|vm_compute; reflexivity].
    + apply (step_recv_at _ _ _ _ _ _ _ 0 (mkSession false None 0)
               (ReadOk _ (mkMessage _ TypeJoinMessage (mkJoin "alice" "lobby")))
               (mkSession true (Some 0) 0));
        [reflexivity|vm_compute; reflexivity|vm_compute; reflexivity].
  - apply (step_connect_at _ _ _ _ _ _ _ (mkSession false None 1));
      [reflexivity|vm_compute; reflexivity].
Qed.

(** ** The further theorems at concrete inputs *)

Lemma broadcast_reaches_every_member_witness :
  ∃ bcast,
    broadcastMessage map_to_list (<["carol" := 2]> (<["alice" := 0]> ∅))
      (Leave (mkLeave "bob")) st_lobby
    = Some (tt, add_events st_lobby bcast)
    ∧ length bcast = 2
    ∧ EvSend 2 (Leave (mkLeave "bob")) false ∈ bcast
    ∧ EvSend 0 (Leave (mkLeave "bob")) true ∈ bcast.
Proof.
  destruct (broadcast_reaches_every_member map_to_list range_map_to_list
              (<["carol" := 2]> (<["alice" := 0]> ∅)) (Leave (mkLeave "bob")) st_lobby)
    as (bcast & Hrun & Hlen & Hin & _).
  - apply (bool_decide_unpack _). vm_compute. exact I.
  - exists bcast. split; [exact Hrun|]. split; [rewrite Hlen; reflexivity|].
    split.
    + apply (Hin "carol" 2 (mkUser "carol" true)); reflexivity.
    + apply (Hin "alice" 0 (mkUser "alice" false)); reflexivity.
Defined.

Lemma join_error_messages_witness :
  ∃ res st',
    handleJoinMessage map_to_list (mkJoin "alice" "lobby") 1 st_lobby = Some (res, st')
    ∧ res = inl "Nickname in use.".
Proof.
  destruct (join_error_messages map_to_list range_map_to_list
              (mkJoin "alice" "lobby") 1 st_lobby (mkUser "" false))
    as (res & st' & Hrun & _ & _ & Hiff & _).
  - apply (bool_decide_unpack _). vm_compute. exact I.
  - reflexivity.
  - exists res, st'. split; [exact Hrun|]. apply Hiff.
    split; [simpl; lia|]. split; [simpl; lia|].
    exists 0, (mkRoom "lobby" (<["carol" := 2]> (<["alice" := 0]> ∅))).
    split; [reflexivity|]. split; [reflexivity|]. exists 0. reflexivity.
Defined.

Lemma join_changes_one_room_witness :
  ∃ r st' R',
    handleJoinMessage map_to_list (mkJoin "bob" "lobby") 1 st_lobby = Some (inr r, st')
    ∧ rooms st' !! r = Some R'
    ∧ Room_Users R' !! "bob" = Some 1
    ∧ users st' !! 1 = Some (mkUser "bob" false)
    ∧ users st' !! 2 = users st_lobby !! 2.
Proof.
  destruct (join_changes_one_room map_to_list range_map_to_list
              (mkJoin "bob" "lobby") 1 st_lobby (mkUser "" false))
    as (r & st' & R' & Hrun & HR' & Hin & _ & _ & _ & _ & _ & _ & HU' & Hframe).
  - apply (bool_decide_unpack _). vm_compute. exact I.
  - reflexivity.
  - simpl. lia.
  - simpl. lia.
  - exact bob_is_free.
  - exists r, st', R'. split; [exact Hrun|]. split; [exact HR'|].
    split; [exact Hin|]. split; [exact HU'|]. apply Hframe. lia.
Defined.

Lemma join_then_leave_restores_witness :
  ∃ r st1 st2,
    handleJoinMessage map_to_list (mkJoin "bob" "lobby") 1 st_lobby = Some (inr r, st1)
    ∧ handleLeaveMessage map_to_list r 1 st1 = Some (tt, st2)
    ∧ allRooms st2 = allRooms st_lobby
    ∧ room_lifecycle st2.
Proof.
  destruct (join_then_leave_restores map_to_list range_map_to_list
              (mkJoin "bob" "lobby") 1 st_lobby (mkUser "" false))
    as (r & st1 & st2 & Hrun1 & Hrun2 & Hreg & _ & _ & _ & Hinv).
  - apply (bool_decide_unpack _). vm_compute. exact I.
  - exact room_lifecycle_st_lobby.
  - reflexivity.
  - simpl. lia.
  - simpl. lia.
  - exact bob_is_free.
  - exists r, st1, st2. split; [exact Hrun1|]. split; [exact Hrun2|].
    split; [exact Hreg|exact Hinv].
Defined.

Lemma join_same_name_rejected_witness :
  ∃ r st1 st2,
    handleJoinMessage map_to_list (mkJoin "bob" "lobby") 1 st_lobby = Some (inr r, st1)
    ∧ handleJoinMessage map_to_list (mkJoin "bob" "lobby") 2 st1
      = Some (inl "Nickname in use.", st2)
    ∧ rooms st2 = rooms st1.
Proof.
  destruct (join_same_name_rejected map_to_list range_map_to_list
              (mkJoin "bob" "lobby") 1 st_lobby (mkUser "" false) 2)
    as (r & st1 & st2 & Hrun1 & Hrun2 & _ & Hrooms & _).
  - apply (bool_decide_unpack _). vm_compute. exact I.
  - reflexivity.
  - simpl. lia.
  - simpl. lia.
  - exact bob_is_free.
  - exists r, st1, st2. split; [exact Hrun1|]. split; [exact Hrun2|exact Hrooms].
Defined.

Lemma rejoin_after_last_leave_witness :
  ∃ st1 r' st2,
    handleLeaveMessage map_to_list 0 0 st_two = Some (tt, st1)
    ∧ allRooms st1 !! "lobby" = None
    ∧ handleJoinMessage map_to_list (mkJoin "bob" "lobby") 1 st1 = Some (inr r', st2)
    ∧ r' ≠ 0
    ∧ rooms st2 !! r' = Some (mkRoom "lobby" {["bob" := 1]}).
Proof.
  destruct (rejoin_after_last_leave map_to_list range_map_to_list 0 0 st_two
              (mkRoom "lobby" (<["alice" := 0]> ∅)) (mkUser "alice" false)
              (mkJoin "bob" "lobby") 1 (mkUser "" false))
    as (st1 & r' & st2 & Hrun1 & Hreg & Hrun2 & Hne & _ & _ & HR' & _).
  - reflexivity.
  - reflexivity.
  - apply (bool_decide_unpack _). vm_compute. exact I.
  - apply delete_insert_id. reflexivity.
  - reflexivity.
  - reflexivity.
  - simpl. lia.
  - simpl. lia.
  - exists st1, r', st2. split; [exact Hrun1|]. split; [exact Hreg|].
    split; [exact Hrun2|]. split; [exact Hne|exact HR'].
Defined.

(** The registry of [st_stale] maps a name to a room of that name. *)
Lemma st_stale_keys name r0 :
  allRooms st_stale !! name = Some r0 →
  ∃ R0, rooms st_stale !! r0 = Some R0 ∧ Room_Name R0 = name.
Proof.
  intros Hr. simpl in Hr.
  apply lookup_insert_Some in Hr as [[<- <-]|[_ Hr]].
  - eexists. split; [apply lookup_insert_eq|reflexivity].
  - rewrite lookup_empty in Hr. discriminate.
Qed.

Lemma leave_unregisters_by_name_witness :
  ∃ st',
    handleLeaveMessage map_to_list 0 0 st_stale = Some (tt, st')
    ∧ allRooms st' = delete "lobby" (allRooms st_stale)
    ∧ rooms st' !! 1 = Some (mkRoom "lobby" (<["bob" := 1]> ∅))
    ∧ ¬ room_lifecycle st'.
Proof.
  destruct (leave_unregisters_by_name map_to_list range_map_to_list 0 0 st_stale
              (mkRoom "lobby" ∅) (mkUser "alice" false)
              1 (mkRoom "lobby" (<["bob" := 1]> ∅)))
    as (st' & Hrun & Hreg & HR2 & _ & Hnot).
  - exact st_stale_keys.
  - reflexivity.
  - reflexivity.
  - apply (bool_decide_unpack _). vm_compute. exact I.
  - apply delete_empty.
  - reflexivity.
  - lia.
  - reflexivity.
  - apply insert_non_empty.
  - exists st'. split; [exact Hrun|]. split; [exact Hreg|].
    split; [exact HR2|exact Hnot].
Defined.


Lemma recv_join_outcomes_witness :
  ∃ st1,
    handleJoinMessage map_to_list (mkJoin "alice" "lobby") 1 st_lobby
    = Some (inl "Nickname in use.", st1)
    ∧ recvStep map_to_list JoinMessage inr undecodable undecodable
        (mkSession false None 1)
        (ReadOk _ (mkMessage _ TypeJoinMessage (mkJoin "alice" "lobby"))) st_lobby
      = Some (Continue (mkSession false None 1),
              add_events st1 [EvSend 1 (Error (mkError "Nickname in use.")) true]).
Proof.
  destruct (recv_join_outcomes map_to_list range_map_to_list
              JoinMessage inr undecodable undecodable
              (mkSession false None 1)
              (mkMessage _ TypeJoinMessage (mkJoin "alice" "lobby"))
              (mkJoin "alice" "lobby") st_lobby (mkUser "" false))
    as (res & st1 & Hrun & Hrecv).
  - apply (bool_decide_unpack _). vm_compute. exact I.
  - reflexivity.
  - reflexivity.
  - reflexivity.
  - reflexivity.
  - reflexivity.
  - exists st1.
    assert (Hres : res = inl "Nickname in use.").
    { vm_compute in Hrun. injection Hrun as <- _. reflexivity. }
    rewrite Hres in Hrun, Hrecv. split; [exact Hrun|exact Hrecv].
Defined.

Lemma recv_leave_resets_witness :
  ∃ st',
    recvStep map_to_list unit no_payload no_payload no_payload
      (mkSession true (Some 0) 0) (ReadOk unit (mkMessage unit TypeLeaveMessage tt))
      st_lobby
    = Some (Continue (mkSession false None 0), st')
    ∧ users st' = <[0 := mkUser "" false]> (users st_lobby).
Proof.
  destruct (recv_leave_resets map_to_list range_map_to_list
              unit no_payload no_payload no_payload
              (mkSession true (Some 0) 0) (mkMessage unit TypeLeaveMessage tt)
              st_lobby 0 (mkRoom "lobby" (<["carol" := 2]> (<["alice" := 0]> ∅)))
              (mkUser "alice" false))
    as (st1 & st' & _ & Hrecv & _ & _ & Hus & _).
  - reflexivity.
  - reflexivity.
  - reflexivity.
  - reflexivity.
  - apply (bool_decide_unpack _). vm_compute. exact I.
  - reflexivity.
  - exists st'. split; [exact Hrecv|exact Hus].
Defined.

Lemma recv_group_private_witness :
  ∃ st1,
    handlePrivateMessage (mkPrivate "" "dave" "hi") 0 0 st_lobby
    = Some (Some "Recipient not in room.", st1)
    ∧ recvStep map_to_list PrivateMessage undecodable undecodable inr
        (mkSession true (Some 0) 0)
        (ReadOk _ (mkMessage _ TypePrivateMessage (mkPrivate "" "dave" "hi"))) st_lobby
      = Some (Continue (mkSession true (Some 0) 0),
              add_events st1 [EvSend 0 (Error (mkError "Recipient not in room.")) true]).
Proof.
  destruct (recv_group_private map_to_list range_map_to_list
              PrivateMessage undecodable undecodable inr
              (mkSession true (Some 0) 0)
              (mkMessage _ TypePrivateMessage (mkPrivate "" "dave" "hi"))
              st_lobby 0 (mkRoom "lobby" (<["carol" := 2]> (<["alice" := 0]> ∅)))
              (mkUser "alice" false))
    as [_ Hprivate].
  - reflexivity.
  - reflexivity.
  - reflexivity.
  - reflexivity.
  - reflexivity.
  - apply (bool_decide_unpack _). vm_compute. exact I.
  - destruct (Hprivate (mkPrivate "" "dave" "hi")) as (res & st1 & Hrun & Hrecv).
    + reflexivity.
    + reflexivity.
    + exists st1.
      assert (Hres : res = Some "Recipient not in room.").
      { vm_compute in Hrun. injection Hrun as <- _. reflexivity. }
      rewrite Hres in Hrun, Hrecv. split; [exact Hrun|exact Hrecv].
Defined.

Lemma reachable_return_iff_fatal_witness :
  ∃ res st',
    recvStep map_to_list JoinMessage inr undecodable undecodable
      (mkSession false None 1)
      (readMessage JoinMessage (Message JoinMessage) inr (inl "EOF"))
      (sys_state sys_two)
    = Some (res, st')
    ∧ res = Return (mkSession false None 1) (ErrRead "EOF")
    ∧ st' = sys_state sys_two.
Proof.
  destruct (reachable_return_iff_fatal map_to_list range_map_to_list
              JoinMessage inr undecodable undecodable (Message JoinMessage) inr
              sys_two 1 (mkSession false None 1) (inl "EOF"))
    as (res & st' & Hrun & _ & Hsame & Hread).
  - exact reachable_sys_two.
  - reflexivity.
  - exists res, st'. split; [exact Hrun|].
    assert (Hres : res = Return (mkSession false None 1) (ErrRead "EOF")).
    { apply Hread. left. reflexivity. }
    split; [exact Hres|]. exact (proj1 (Hsame _ _ Hres)).
Defined.

Lemma reachable_next_step_witness :
  ∃ res st' σ',
    recvStep map_to_list JoinMessage inr undecodable undecodable
      (mkSession true (Some 0) 0) (ReadError JoinMessage "EOF") (sys_state sys_two)
    = Some (res, st')
    ∧ step map_to_list JoinMessage inr undecodable undecodable sys_two σ'.
Proof.
  destruct (reachable_next_step map_to_list range_map_to_list
              JoinMessage inr undecodable undecodable
              sys_two 0 (mkSession true (Some 0) 0) (ReadError JoinMessage "EOF"))
    as (res & st' & σ' & Hrun & Hstep & _).
  - exact reachable_sys_two.
  - reflexivity.
  - exists res, st', σ'. split; [exact Hrun|exact Hstep].
Defined.

Lemma reachable_members_live_witness :
  ∃ sid V,
    sessions sys_two !! sid = Some (mkSession true (Some 0) 0)
    ∧ users (sys_state sys_two) !! 0 = Some V
    ∧ User_Name V = "alice".
Proof.
  apply (reachable_members_live map_to_list range_map_to_list
           JoinMessage inr undecodable undecodable
           sys_two 0 (mkRoom "lobby" (<["alice" := 0]> ∅)) "alice" 0).
  - exact reachable_sys_two.
  - reflexivity.
  - reflexivity.
Defined.

Lemma reachable_one_room_witness : 0 = 0 ∧ "alice" = "alice".
Proof.
  apply (reachable_one_room map_to_list range_map_to_list
           JoinMessage inr undecodable undecodable
           sys_two 0 (mkRoom "lobby" (<["alice" := 0]> ∅)) "alice"
           0 (mkRoom "lobby" (<["alice" := 0]> ∅)) "alice" 0).
  - exact reachable_sys_two.
  - reflexivity.
  - reflexivity.
  - reflexivity.
  - reflexivity.
Defined.

Lemma reachable_registered_iff_joined_witness :
  registered (sys_state sys_two) 0
  ↔ ∃ sid u, sessions sys_two !! sid = Some (mkSession true (Some 0) u).
Proof.
  apply (reachable_registered_iff_joined map_to_list range_map_to_list
           JoinMessage inr undecodable undecodable sys_two 0).
  exact reachable_sys_two.
Defined.

Lemma reachable_names_valid_witness :
  (∀ name r, allRooms (sys_state sys_two) !! name = Some r →
     (1 ≤ String.length name ≤ 128)%nat
     ∧ ∃ R, rooms (sys_state sys_two) !! r = Some R ∧ Room_Name R = name)
  ∧ (∀ r R, rooms (sys_state sys_two) !! r = Some R →
       (1 ≤ String.length (Room_Name R) ≤ 128)%nat
       ∧ ∀ n v, Room_Users R !! n = Some v → (1 ≤ String.length n ≤ 128)%nat).
Proof.
  apply (reachable_names_valid map_to_list range_map_to_list
           JoinMessage inr undecodable undecodable sys_two).
  exact reachable_sys_two.
Defined.

Lemma reachable_room_lifecycle_witness : room_lifecycle (sys_state sys_two).
Proof.
  apply (reachable_room_lifecycle map_to_list range_map_to_list
           JoinMessage inr undecodable undecodable sys_two).
  exact reachable_sys_two.
Defined.
